(** * glad/parse.py: the OpenGL registry object model

    A shallow embedding of [glad/parse.py] (Python 2).  Python values that
    the module manipulates are embedded as follows:

    - [str] is [string]; an attribute or text that may be [None] is
      [option string]; [int] is [Z]; a tuple of ints is [list Z];
    - [dict] is a [gmap]; the [set] of removed objects is a finite map keyed
      by object identity, because [Enum] and [Command] define [__hash__] but
      no [__eq__], so that membership is decided by identity;
    - a raised exception is the [Raise] outcome of a computation; the
      interpreter state reached when it was raised is kept, as in Python;
    - every object whose identity is observable ([Enum], [Command],
      [Extension], [Feature]) carries the identity it was allocated with. *)

From Stdlib Require Import Ascii.
From stdpp Require Import gmap strings list fin_maps.

Local Open Scope Z_scope.

(** ** Python string methods used by the module *)

Module PyStr.

(** [str.isspace] on one character of a byte string. *)
Definition is_space (c : ascii) : bool :=
  let n := nat_of_ascii c in
  ((9 <=? n)%nat && (n <=? 13)%nat) || (n =? 32)%nat.

Fixpoint mem (c : ascii) (chars : string) : bool :=
  match chars with
  | EmptyString => false
  | String d r => if Ascii.eqb c d then true else mem c r
  end.

Fixpoint lstrip_by (p : ascii → bool) (s : string) : string :=
  match s with
  | EmptyString => EmptyString
  | String c r => if p c then lstrip_by p r else s
  end.

Fixpoint rstrip_by (p : ascii → bool) (s : string) : string :=
  match s with
  | EmptyString => EmptyString
  | String c r =>
      match rstrip_by p r with
      | EmptyString => if p c then EmptyString else String c EmptyString
      | r' => String c r'
      end
  end.

Definition strip_by (p : ascii → bool) (s : string) : string :=
  rstrip_by p (lstrip_by p s).

(** [s.strip()] *)
Definition strip (s : string) : string := strip_by is_space s.

(** [s.strip(chars)]: [chars] is a set of characters, not a word. *)
Definition strip_chars (chars s : string) : string :=
  strip_by (λ c, mem c chars) s.

(** The longest prefix of characters satisfying [p], and the rest. *)
Fixpoint span (p : ascii → bool) (s : string) : string * string :=
  match s with
  | EmptyString => (EmptyString, EmptyString)
  | String c r =>
      if p c then let '(a, b) := span p r in (String c a, b)
      else (EmptyString, s)
  end.

(** [s.split(None, 1)] *)
Definition split_ws1 (s : string) : list string :=
  match lstrip_by is_space s with
  | EmptyString => []
  | s1 =>
      let '(tok, rest) := span (λ c, negb (is_space c)) s1 in
      match lstrip_by is_space rest with
      | EmptyString => [tok]
      | rest' => [tok; rest']
      end
  end.

(** [s.split(sep)] for a separator of one character. *)
Fixpoint split_char (sep : ascii) (s : string) : list string :=
  match s with
  | EmptyString => [EmptyString]
  | String c r =>
      if Ascii.eqb c sep then EmptyString :: split_char sep r
      else match split_char sep r with
           | [] => [String c EmptyString]
           | w :: ws => String c w :: ws
           end
  end.

(** [s.count(c)] for a string [c] of one character. *)
Fixpoint count_char (c : ascii) (s : string) : nat :=
  match s with
  | EmptyString => 0%nat
  | String d r => ((if Ascii.eqb c d then 1 else 0) + count_char c r)%nat
  end.

Fixpoint startswith (p s : string) : bool :=
  match p, s with
  | EmptyString, _ => true
  | String a p', String b s' => Ascii.eqb a b && startswith p' s'
  | String _ _, EmptyString => false
  end.

(** [sub in s] *)
Fixpoint contains (sub s : string) : bool :=
  startswith sub s ||
  match s with
  | EmptyString => false
  | String _ r => contains sub r
  end.

(** [s.replace(old, new)] for a non-empty [old]: occurrences are replaced
    from the left and do not overlap.  [skip] counts the characters of a
    match that are still to be dropped. *)
Fixpoint replace_from (old new : string) (skip : nat) (s : string) : string :=
  match s with
  | EmptyString => EmptyString
  | String c r =>
      match skip with
      | S k => replace_from old new k r
      | O =>
          if startswith old s
          then new +:+ replace_from old new (String.length old - 1) r
          else String c (replace_from old new 0 r)
      end
  end.

Definition replace (old new s : string) : string := replace_from old new 0 s.

(** ['*' * n] *)
Fixpoint repeat_str (s : string) (n : nat) : string :=
  match n with
  | O => EmptyString
  | S k => s +:+ repeat_str s k
  end.

Definition digit_val (c : ascii) : option Z :=
  let n := nat_of_ascii c in
  if ((48 <=? n)%nat && (n <=? 57)%nat) then Some (Z.of_nat n - 48) else None.

Fixpoint digits_val (acc : Z) (s : string) : option Z :=
  match s with
  | EmptyString => Some acc
  | String c r =>
      match digit_val c with
      | Some d => digits_val (10 * acc + d) r
      | None => None
      end
  end.

(** [int(s)] in base ten: surrounding white space, an optional sign and at
    least one digit; [None] stands for the [ValueError]. *)
Definition int (s : string) : option Z :=
  match strip s with
  | EmptyString => None
  | String c r =>
      if Ascii.eqb c "-"%char then
        match r with
        | EmptyString => None
        | _ => Z.opp <$> digits_val 0 r
        end
      else if Ascii.eqb c "+"%char then
        match r with
        | EmptyString => None
        | _ => digits_val 0 r
        end
      else digits_val 0 (String c r)
  end.

(** [str(x)] of a value that is a string or [None], as [format] prints it. *)
Definition of_opt (x : option string) : string :=
  match x with
  | Some s => s
  | None => "None"
  end.

End PyStr.

(** ** Exceptions and outcomes *)

Inductive exn :=
  | KeyError | TypeError | AttributeError | ValueError
  | AssertionError | IndexError | NameError.

Inductive result (A : Type) : Type :=
  | Ok (a : A)
  | Raise (e : exn).
Arguments Ok {A} a.
Arguments Raise {A} e.

#[global] Instance result_ret : MRet result := λ A a, Ok a.
#[global] Instance result_bind : MBind result := λ A B f r,
  match r with
  | Ok a => f a
  | Raise e => Raise e
  end.

(** [d[k]] on a dict: a missing key raises [KeyError]. *)
Definition getitem `{Countable K} {V} (d : gmap K V) (k : K) : result V :=
  match d !! k with
  | Some v => Ok v
  | None => Raise KeyError
  end.

(** ** ElementTree *)

#[warnings="-register-all"] Inductive Element := Elem {
  tag : string;
  attrib : gmap string string;
  text : option string;
  tail : option string;
  children : list Element
}.

(** [element.find(t)]: the first child with tag [t], or [None]. *)
Definition Element_find (t : string) (element : Element) : option Element :=
  head (filter (λ c, tag c = t) (children element)).

(** [element.findall(t)]: the children with tag [t]. *)
Definition Element_findall (t : string) (element : Element) : list Element :=
  filter (λ c, tag c = t) (children element).

(** [element.iter(t)]: the element and its descendants with tag [t], in
    document order. *)
Fixpoint Element_iter (t : string) (element : Element) : list Element :=
  match element with
  | Elem tg _ _ _ cs =>
      (if bool_decide (tg = t) then [element] else [])
      ++ (fix over (l : list Element) : list Element :=
            match l with
            | [] => []
            | c :: r => Element_iter t c ++ over r
            end) cs
  end.

(** A text or tail is yielded when it is neither [None] nor empty. *)
Definition truthy (x : option string) : list string :=
  match x with
  | Some (String c r) => [String c r]
  | _ => []
  end.

(** [element.itertext()] *)
Fixpoint Element_itertext (element : Element) : list string :=
  match element with
  | Elem _ _ tx _ cs =>
      truthy tx
      ++ (fix over (l : list Element) : list string :=
            match l with
            | [] => []
            | c :: r => Element_itertext c ++ truthy (tail c) ++ over r
            end) cs
  end.

(** [''.join(l)] *)
Definition join (l : list string) : string := foldr String.append "" l.

(** [.text] and [.find] on the result of a [find], which may be [None]. *)
Definition text_of (e : option Element) : result (option string) :=
  match e with
  | Some x => Ok (text x)
  | None => Raise AttributeError
  end.

Definition find_of (t : string) (e : option Element) : result (option Element) :=
  match e with
  | Some x => Ok (Element_find t x)
  | None => Raise AttributeError
  end.

(** [for element in e] where [e] is the result of a [find]. *)
Definition iterate (e : option Element) : result (list Element) :=
  match e with
  | Some x => Ok (children x)
  | None => Raise TypeError
  end.

(** [chain.from_iterable(element.findall(t))] *)
Definition chained (t : string) (element : Element) : list Element :=
  concat (children <$> Element_findall t element).

(** ** Value classes without observable identity *)

(** [class Type] *)
Record Type_ := { raw : string }.

Definition Type__init__ (element : Element) : Type_ :=
  {| raw := join (Element_itertext element) |}.

Definition is_preprocessor (self : Type_) : bool := PyStr.contains "#" (raw self).

(** [class Group] *)
Record Group := { Group_name : string; Group_enums : list string }.

Definition Group__init__ (element : Element) : result Group :=
  name ← getitem (attrib element) "name";
  enums ← mapM (λ enum, getitem (attrib enum) "name") (children element);
  Ok {| Group_name := name; Group_enums := enums |}.

(** [class OGLType] *)
Record OGLType := {
  OGLType_type : option string;
  is_pointer : nat;
  is_const : bool
}.

(** [l[0]] *)
Definition first (l : list string) : result string :=
  match l with
  | x :: _ => Ok x
  | [] => Raise IndexError
  end.

Definition OGLType__init__ (element : Element) : result OGLType :=
  let text' := join (Element_itertext element) in
  type ← match Element_find "ptype" element with
         | None =>
             t ← first (PyStr.split_ws1
                          (PyStr.strip (PyStr.strip_chars "const" (PyStr.strip text'))));
             Ok (Some t)
         | Some ptype => Ok (text ptype)
         end;
  Ok {| OGLType_type := type;
        is_pointer := PyStr.count_char "*" text';
        is_const := PyStr.contains "const" text' |}.

(** [s += t] where [s] may be [None]. *)
Definition iadd (s : option string) (t : string) : result string :=
  match s with
  | Some x => Ok (x +:+ t)
  | None => Raise TypeError
  end.

Definition to_d (self : OGLType) : result string :=
  s ← (if bool_decide (1 < is_pointer self)%nat && is_const self then
         iadd (Some ("const(" +:+ PyStr.of_opt (OGLType_type self) +:+ "*)"))
              (PyStr.repeat_str "*" (is_pointer self - 1))
       else
         iadd (if is_const self
               then Some ("const(" +:+ PyStr.of_opt (OGLType_type self) +:+ ")")
               else OGLType_type self)
              (PyStr.repeat_str "*" (is_pointer self)));
  Ok (PyStr.replace "struct " "" s).

Definition to_c (self : OGLType) : result string :=
  iadd (if is_const self
        then Some ("const " +:+ PyStr.of_opt (OGLType_type self))
        else OGLType_type self)
       (PyStr.repeat_str "*" (is_pointer self)).

(** [class Proto]; its argument is the result of [element.find('proto')]. *)
Record Proto := { Proto_name : option string; ret : OGLType }.

Definition Proto__init__ (element : option Element) : result Proto :=
  name ← (find_of "name" element ≫= text_of);
  ret ← match element with
        | Some e => OGLType__init__ e
        | None => Raise AttributeError
        end;
  Ok {| Proto_name := name; ret := ret |}.

(** [class Param] *)
Record Param := {
  Param_group : option string;
  Param_type : OGLType;
  Param_name : option string
}.

Definition Param__init__ (element : Element) : result Param :=
  let group := attrib element !! "group" in
  type ← OGLType__init__ element;
  name ← text_of (Element_find "name" element);
  Ok {| Param_group := group; Param_type := type; Param_name := name |}.

(** ** Classes whose instances have an observable identity *)

(** [class Enum]; [Enum_id] is the identity of the object, what [is]
    compares. *)
Record Enum := {
  Enum_id : positive;
  Enum_name : string;
  Enum_value : string;
  Enum_namespace : string;
  Enum_type : option string;
  Enum_group : option string;
  Enum_vendor : option string;
  Enum_comment : string
}.

(** [class Command] *)
Record Command := {
  Command_id : positive;
  proto : Proto;
  params : list Param
}.

(** What a require list or the removal set holds: [isinstance] tells the
    two classes apart. *)
Inductive object :=
  | OEnum (e : Enum)
  | OCommand (c : Command).

Definition id_of (o : object) : positive :=
  match o with
  | OEnum e => Enum_id e
  | OCommand c => Command_id c
  end.

(** [a == b] and [a in s] for these classes: neither defines [__eq__] or
    [__cmp__], so Python compares identities. *)
Definition Enum_eq (a b : Enum) : bool := bool_decide (Enum_id a = Enum_id b).
Definition Command_eq (a b : Command) : bool :=
  bool_decide (Command_id a = Command_id b).

Definition set_add (o : object) (s : gmap positive object) : gmap positive object :=
  match s !! id_of o with
  | Some _ => s
  | None => <[id_of o := o]> s
  end.

Definition set_in (o : object) (s : gmap positive object) : bool :=
  bool_decide (is_Some (s !! id_of o)).

(** [class Extension] *)
Record Extension := {
  Extension_id : positive;
  Extension_name : string;
  require : list object
}.

(** [class Feature(Extension)]: the inherited part and the fields of its
    own; [self.spec] is the one specification of the interpreter state. *)
Record Feature := {
  base : Extension;
  number : list Z;
  api : string
}.

(** [class OpenGLSpec] *)
Record OpenGLSpec := {
  root : Element;
  _types : option (list Type_);
  _groups : option (gmap string Group);
  _enums : option (gmap string Enum);
  _commands : option (gmap (option string) Command);
  _features : option (gmap string (list (list Z * Feature)));
  _extensions : option (gmap string (gmap string Extension));
  _profile : string;
  _remove : gmap positive object
}.

Definition OpenGLSpec__init__ (root : Element) : OpenGLSpec :=
  {| root := root;
     _types := None; _groups := None; _enums := None; _commands := None;
     _features := None; _extensions := None;
     _profile := "compatability"; _remove := ∅ |}.

Definition set_types v (s : OpenGLSpec) : OpenGLSpec :=
  {| root := root s; _types := v; _groups := _groups s; _enums := _enums s;
     _commands := _commands s; _features := _features s;
     _extensions := _extensions s; _profile := _profile s; _remove := _remove s |}.
Definition set_groups v (s : OpenGLSpec) : OpenGLSpec :=
  {| root := root s; _types := _types s; _groups := v; _enums := _enums s;
     _commands := _commands s; _features := _features s;
     _extensions := _extensions s; _profile := _profile s; _remove := _remove s |}.
Definition set_enums v (s : OpenGLSpec) : OpenGLSpec :=
  {| root := root s; _types := _types s; _groups := _groups s; _enums := v;
     _commands := _commands s; _features := _features s;
     _extensions := _extensions s; _profile := _profile s; _remove := _remove s |}.
Definition set_commands v (s : OpenGLSpec) : OpenGLSpec :=
  {| root := root s; _types := _types s; _groups := _groups s; _enums := _enums s;
     _commands := v; _features := _features s;
     _extensions := _extensions s; _profile := _profile s; _remove := _remove s |}.
Definition set_features v (s : OpenGLSpec) : OpenGLSpec :=
  {| root := root s; _types := _types s; _groups := _groups s; _enums := _enums s;
     _commands := _commands s; _features := v;
     _extensions := _extensions s; _profile := _profile s; _remove := _remove s |}.
Definition set_extensions v (s : OpenGLSpec) : OpenGLSpec :=
  {| root := root s; _types := _types s; _groups := _groups s; _enums := _enums s;
     _commands := _commands s; _features := _features s;
     _extensions := v; _profile := _profile s; _remove := _remove s |}.
Definition set_profile v (s : OpenGLSpec) : OpenGLSpec :=
  {| root := root s; _types := _types s; _groups := _groups s; _enums := _enums s;
     _commands := _commands s; _features := _features s;
     _extensions := _extensions s; _profile := v; _remove := _remove s |}.
Definition set_remove v (s : OpenGLSpec) : OpenGLSpec :=
  {| root := root s; _types := _types s; _groups := _groups s; _enums := _enums s;
     _commands := _commands s; _features := _features s;
     _extensions := _extensions s; _profile := _profile s; _remove := v |}.

(** ** The interpreter state and its monad *)

(** The specification object the methods run on, and the next unused
    object identity. *)
Record Interp := { fresh : positive; spec : OpenGLSpec }.

(** A computation returns or raises, and leaves a state either way. *)
Definition Py (A : Type) : Type := Interp → result A * Interp.

#[global] Instance Py_ret : MRet Py := λ A a w, (Ok a, w).
#[global] Instance Py_bind : MBind Py := λ A B f c w,
  match c w with
  | (Ok a, w') => f a w'
  | (Raise e, w') => (Raise e, w')
  end.

Definition lift {A} (r : result A) : Py A := λ w, (r, w).
Definition raise {A} (e : exn) : Py A := λ w, (Raise e, w).
Definition self : Py OpenGLSpec := λ w, (Ok (spec w), w).
Definition update (f : OpenGLSpec → OpenGLSpec) : Py unit :=
  λ w, (Ok tt, {| fresh := fresh w; spec := f (spec w) |}).

(** Allocation of an object: its identity is new. *)
Definition new : Py positive :=
  λ w, (Ok (fresh w), {| fresh := Pos.succ (fresh w); spec := spec w |}).

(** [for x in l: body] *)
Fixpoint for_ {A} (body : A → Py unit) (l : list A) : Py unit :=
  match l with
  | [] => mret tt
  | x :: r => body x ;; for_ body r
  end.

(** A loop that updates a local variable [acc]. *)
Fixpoint for_acc {A S} (body : S → A → Py S) (acc : S) (l : list A) : Py S :=
  match l with
  | [] => mret acc
  | x :: r => acc' ← body acc x; for_acc body acc' r
  end.

(** [try: body / except KeyError: pass] *)
Definition except_KeyError {A} (body : Py A) (handler : Py A) : Py A :=
  λ w, match body w with
       | (Raise KeyError, w') => handler w'
       | r => r
       end.

(** ** Containers of the standard library *)

(** [dict(pairs)]: a later pair replaces an earlier one with the same key. *)
Definition dict_of `{Countable K} {V} (pairs : list (K * V)) : gmap K V :=
  foldl (λ d kv, <[kv.1 := kv.2]> d) ∅ pairs.

(** [d[k] = v] on an [OrderedDict]: a known key keeps its place. *)
Fixpoint odict_set {K V} `{EqDecision K} (k : K) (v : V) (d : list (K * V))
  : list (K * V) :=
  match d with
  | [] => [(k, v)]
  | (k', v') :: r =>
      if decide (k = k') then (k, v) :: r else (k', v') :: odict_set k v r
  end.

Fixpoint odict_get {K V} `{EqDecision K} (k : K) (d : list (K * V)) : option V :=
  match d with
  | [] => None
  | (k', v') :: r => if decide (k = k') then Some v' else odict_get k r
  end.

(** [d[k]] on a [defaultdict]: a missing key is bound to the default first. *)
Definition touch `{Countable K} {V} (dflt : V) (k : K) (d : gmap K V) : gmap K V :=
  match d !! k with
  | Some _ => d
  | None => <[k := dflt]> d
  end.

(** ** [class OpenGLSpec]: constructors and properties *)

(** Reading a name in a method body: one of the parameters, or else
    [NameError].  The module binds only its imports and its classes at top
    level, and the methods modelled here read none of them as a value. *)
Definition load_name (locals : list (string * string)) (x : string) : result string :=
  match odict_get x locals with
  | Some v => Ok v
  | None => Raise NameError
  end.

Section Constructors.

(** [etree.fromstring], the XML parser of the standard library. *)
Variable etree_fromstring : string → result Element.

(** [OpenGLSpec.fromstring(string)]; the body reads the name [raw]. *)
Definition fromstring (string : string) : result OpenGLSpec :=
  let locals := [("string", string)] in
  raw ← load_name locals "raw";
  tree ← etree_fromstring raw;
  Ok (OpenGLSpec__init__ tree).

End Constructors.

Definition profile : Py string := s ← self; mret (_profile s).

Definition profile_setter (value : string) : Py unit :=
  if negb (bool_decide (value ∈ ["core"; "compatability"]))
  then raise ValueError
  else update (set_profile value).

(** [spec.removed], read off the specification at the time of the query;
    the [frozenset] is the value of the set at that time. *)
Definition removed (s : OpenGLSpec) : gmap positive object :=
  if bool_decide (_profile s = "core") then _remove s else ∅.

Definition comment (s : OpenGLSpec) : result (option string) :=
  text_of (Element_find "comment" (root s)).

Definition types : Py (list Type_) :=
  s ← self;
  match _types s with
  | Some v => mret v
  | None =>
      let v := Type__init__ <$> Element_iter "types" (root s) in
      update (set_types (Some v));; mret v
  end.

Definition groups : Py (gmap string Group) :=
  s ← self;
  match _groups s with
  | Some v => mret v
  | None =>
      elements ← lift (iterate (Element_find "groups" (root s)));
      pairs ← lift (mapM (λ element,
                            k ← getitem (attrib element) "name";
                            g ← Group__init__ element;
                            Ok (k, g)) elements);
      let v := dict_of pairs in
      update (set_groups (Some v));; mret v
  end.

Definition Command__init__ (i : positive) (element : Element) : result Command :=
  proto ← Proto__init__ (Element_find "proto" element);
  params ← mapM Param__init__ (Element_iter "param" element);
  Ok {| Command_id := i; proto := proto; params := params |}.

(** [Command(element, spec)] *)
Definition Command_new (element : Element) : Py Command :=
  i ← new; lift (Command__init__ i element).

Definition commands : Py (gmap (option string) Command) :=
  s ← self;
  match _commands s with
  | Some v => mret v
  | None =>
      elements ← lift (iterate (Element_find "commands" (root s)));
      pairs ← mapM (λ element,
                      k ← lift (find_of "name" (Element_find "proto" element)
                                ≫= text_of);
                      c ← Command_new element;
                      mret (k, c)) elements;
      let v := dict_of pairs in
      update (set_commands (Some v));; mret v
  end.

(** [Enum(name, value, namespace, type, group, vendor, comment)] *)
Definition Enum_new (name value namespace : string)
    (type group vendor : option string) (comment : string) : Py Enum :=
  i ← new;
  mret {| Enum_id := i; Enum_name := name; Enum_value := value;
          Enum_namespace := namespace; Enum_type := type;
          Enum_group := group; Enum_vendor := vendor;
          Enum_comment := comment |}.

(** [self._enums[name] = e] *)
Definition enums_setitem (name : string) (e : Enum) (s : OpenGLSpec) : OpenGLSpec :=
  set_enums (Some (<[name := e]> (default ∅ (_enums s)))) s.

Definition enums : Py (gmap string Enum) :=
  s ← self;
  match _enums s with
  | Some v => mret v
  | None =>
      update (set_enums (Some ∅));;
      for_ (λ element,
              namespace ← lift (getitem (attrib element) "namespace");
              let type := attrib element !! "type" in
              let group := attrib element !! "group" in
              let vendor := attrib element !! "vendor" in
              let comment := default "" (attrib element !! "comment") in
              for_ (λ enum,
                      if bool_decide (tag enum = "unused") then mret tt
                      else
                        (if bool_decide (tag enum = "enum") then mret tt
                         else raise AssertionError);;
                        name ← lift (getitem (attrib enum) "name");
                        value ← lift (getitem (attrib enum) "value");
                        e ← Enum_new name value namespace
                                     type group vendor comment;
                        update (enums_setitem name e))
                   (children element))
           (Element_iter "enums" (root s));;
      s' ← self; mret (default ∅ (_enums s'))
  end.

(** ** [class Extension] and [class Feature] *)

(** [{ 'enum' : spec.enums, 'command' : spec.commands }[tag]] *)
Definition table (tg : string)
  : Py (gmap string Enum + gmap (option string) Command) :=
  e ← enums;
  c ← commands;
  if bool_decide (tg = "enum") then mret (inl e)
  else if bool_decide (tg = "command") then mret (inr c)
  else raise KeyError.

(** [data[element.attrib['name']]] *)
Definition entry (data : gmap string Enum + gmap (option string) Command)
    (element : Element) : result object :=
  name ← getitem (attrib element) "name";
  match data with
  | inl enums => e ← getitem enums name; Ok (OEnum e)
  | inr commands => c ← getitem commands (Some name); Ok (OCommand c)
  end.

(** The body of the loop over the entries of the require blocks;
    [require] is [self.require]. *)
Definition require_body (require : list object) (required : Element)
  : Py (list object) :=
  if bool_decide (tag required = "type") then mret require
  else
    data ← table (tag required);
    except_KeyError
      (o ← lift (entry data required); mret (require ++ [o]))
      (mret require).

Definition Extension__init__ (i : positive) (element : Element) : Py Extension :=
  name ← lift (getitem (attrib element) "name");
  require ← for_acc require_body [] (chained "require" element);
  mret {| Extension_id := i; Extension_name := name; require := require |}.

(** [Extension(element, spec)] *)
Definition Extension_new (element : Element) : Py Extension :=
  i ← new; Extension__init__ i element.

Definition Extension_enums (self : Extension) : list Enum :=
  omap (λ r, match r with OEnum e => Some e | OCommand _ => None end) (require self).

Definition Extension_functions (self : Extension) : list Command :=
  omap (λ r, match r with OCommand c => Some c | OEnum _ => None end) (require self).

(** [tuple(map(int, element.attrib['number'].split('.')))] *)
Definition version (element : Element) : result (list Z) :=
  n ← getitem (attrib element) "number";
  mapM (λ x, match PyStr.int x with
             | Some z => Ok z
             | None => Raise ValueError
             end) (PyStr.split_char "." n).

(** [spec._remove.add(o)] *)
Definition remove_add (o : object) (s : OpenGLSpec) : OpenGLSpec :=
  set_remove (set_add o (_remove s)) s.

(** The body of the loop over the entries of the remove blocks. *)
Definition remove_body (removed : Element) : Py unit :=
  if bool_decide (tag removed = "type") then mret tt
  else
    data ← table (tag removed);
    except_KeyError
      (o ← lift (entry data removed); update (remove_add o))
      (mret tt).

Definition Feature__init__ (i : positive) (element : Element) : Py Feature :=
  ext ← Extension__init__ i element;
  for_ remove_body (chained "remove" element);;
  number ← lift (version element);
  api ← lift (getitem (attrib element) "api");
  mret {| base := ext; number := number; api := api |}.

(** [Feature(element, spec)] *)
Definition Feature_new (element : Element) : Py Feature :=
  i ← new; Feature__init__ i element.

(** The two views of a feature, read against the specification at the
    time the view is consumed. *)
Definition Feature_enums (self : Feature) (s : OpenGLSpec) : list Enum :=
  filter (λ enum, set_in (OEnum enum) (removed s) = false)
         (Extension_enums (base self)).

Definition Feature_functions (self : Feature) (s : OpenGLSpec) : list Command :=
  filter (λ func, set_in (OCommand func) (removed s) = false)
         (Extension_functions (base self)).

(** [self._features[api][num] = f] *)
Definition features_setitem (api : string) (num : list Z) (f : Feature)
    (s : OpenGLSpec) : OpenGLSpec :=
  let d := touch [] api (default ∅ (_features s)) in
  set_features (Some (<[api := odict_set num f (default [] (d !! api))]> d)) s.

Definition features : Py (gmap string (list (list Z * Feature))) :=
  s ← self;
  match _features s with
  | Some v => mret v
  | None =>
      update (set_features (Some ∅));;
      for_ (λ element,
              num ← lift (version element);
              f ← Feature_new element;
              api ← lift (getitem (attrib element) "api");
              update (features_setitem api num f))
           (Element_iter "feature" (root s));;
      s' ← self; mret (default ∅ (_features s'))
  end.

(** [self._extensions[api]], which binds a missing [api] to an empty dict. *)
Definition extensions_touch (api : string) (s : OpenGLSpec) : OpenGLSpec :=
  set_extensions (Some (touch ∅ api (default ∅ (_extensions s)))) s.

(** [self._extensions[api][name] = e], once [api] is bound. *)
Definition extensions_setitem (api name : string) (e : Extension)
    (s : OpenGLSpec) : OpenGLSpec :=
  let d := default ∅ (_extensions s) in
  set_extensions (Some (<[api := <[name := e]> (default ∅ (d !! api))]> d)) s.

Definition extensions : Py (gmap string (gmap string Extension)) :=
  s ← self;
  match _extensions s with
  | Some v => mret v
  | None =>
      update (set_extensions (Some ∅));;
      elements ← lift (iterate (Element_find "extensions" (root s)));
      for_ (λ element,
              supported ← lift (getitem (attrib element) "supported");
              for_ (λ api,
                      e ← Extension_new element;
                      update (extensions_touch api);;
                      name ← lift (getitem (attrib element) "name");
                      update (extensions_setitem api name e))
                   (PyStr.split_char "|" supported))
           elements;;
      s' ← self; mret (default ∅ (_extensions s'))
  end.

(** ** [__hash__] *)

Section Hashing.

(** The built-in [hash] on a string or [None]. *)
Variable hash : option string → Z.

Definition Enum__hash__ (self : Enum) : Z := hash (Some (Enum_name self)).

Definition Command__hash__ (self : Command) : Z :=
  hash (Proto_name (proto self)).

Definition Extension__hash__ (self : Extension) : Z :=
  hash (Some (Extension_name self)).

End Hashing.

(** ** Notions used to state the properties *)

(** The object an entry of a require or remove block names in the two
    tables, if any. *)
Definition lookup_entry (et : gmap string Enum) (ct : gmap (option string) Command)
    (r : Element) : option object :=
  name ← attrib r !! "name";
  if bool_decide (tag r = "enum") then e ← et !! name; Some (OEnum e)
  else if bool_decide (tag r = "command") then c ← ct !! Some name; Some (OCommand c)
  else None.

(** The same against the tables a specification has derived so far. *)
Definition resolve (s : OpenGLSpec) (r : Element) : option object :=
  et ← _enums s; ct ← _commands s; lookup_entry et ct r.

(** The two tables of a state, once both are derived. *)
Definition cached (w : Interp) (et : gmap string Enum)
    (ct : gmap (option string) Command) : Prop :=
  _enums (spec w) = Some et ∧ _commands (spec w) = Some ct.

(** A specification with its two tables forgotten. *)
Definition forget_tables (s : OpenGLSpec) : OpenGLSpec :=
  set_enums None (set_commands None s).

(** What deriving the tables may change: a table that is derived stays,
    identities are used up, the rest is untouched. *)
Record tables_step (w w' : Interp) : Prop := {
  ts_rest : forget_tables (spec w') = forget_tables (spec w);
  ts_enums : ∀ v, _enums (spec w) = Some v → _enums (spec w') = Some v;
  ts_commands : ∀ v, _commands (spec w) = Some v → _commands (spec w') = Some v;
  ts_fresh : (fresh w ≤ fresh w')%positive
}.

(** What constructing features may change besides: removals accumulate. *)
Record grows (w w' : Interp) : Prop := {
  g_root : root (spec w') = root (spec w);
  g_profile : _profile (spec w') = _profile (spec w);
  g_enums : ∀ v, _enums (spec w) = Some v → _enums (spec w') = Some v;
  g_commands : ∀ v, _commands (spec w) = Some v → _commands (spec w') = Some v;
  g_remove : _remove (spec w) ⊆ _remove (spec w');
  g_fresh : (fresh w ≤ fresh w')%positive
}.

(** In a table of enums the keys are the names, and no object is stored
    under two keys; [n] bounds the identities in use. *)
Definition enums_table_ok (n : positive) (t : gmap string Enum) : Prop :=
  (∀ k e, t !! k = Some e → Enum_name e = k ∧ (Enum_id e < n)%positive)
  ∧ (∀ k1 k2 e1 e2, t !! k1 = Some e1 → t !! k2 = Some e2 →
       Enum_id e1 = Enum_id e2 → k1 = k2).

Definition commands_pairs_ok (n : positive)
    (l : list (option string * Command)) : Prop :=
  (∀ k c, (k, c) ∈ l → Proto_name (proto c) = k ∧ (Command_id c < n)%positive)
  ∧ (∀ k1 k2 c1 c2, (k1, c1) ∈ l → (k2, c2) ∈ l →
       Command_id c1 = Command_id c2 → k1 = k2).

(** [extensions[api][name]], when bound. *)
Definition ext_at (d : gmap string (gmap string Extension)) (api name : string)
  : option Extension :=
  m ← d !! api; m !! name.

(** An entry that names a type, which both loops skip. *)
Definition is_type (r : Element) : bool := bool_decide (tag r = "type").

(** The tags a require or remove block may hold. *)
Definition known_tag (r : Element) : Prop := tag r ∈ ["type"; "enum"; "command"].

(** [spec._remove.add(o)] for each [o] of a list, in order. *)
Definition add_all (os : list object) (w : Interp) : Interp :=
  {| fresh := fresh w; spec := foldl (λ s o, remove_add o s) (spec w) os |}.

(** The base type name as the specification words it: the first token
    delimited by white space, after a leading [const] keyword is dropped. *)
Definition spec_base_type (text' : string) : result string :=
  match PyStr.split_ws1 text' with
  | [] => Raise IndexError
  | [tok] => if bool_decide (tok = "const") then Raise IndexError else Ok tok
  | tok :: rest :: _ =>
      if bool_decide (tok = "const") then first (PyStr.split_ws1 rest) else Ok tok
  end.

(** ** Sample documents *)

Definition node (t : string) (a : list (string * string)) (tx : option string)
    (cs : list Element) : Element :=
  Elem t (list_to_map a) tx None cs.

(** [<command><proto>void <name>n</name></proto></command>] *)
Definition demo_command (n : string) : Element :=
  node "command" [] None
    [node "proto" [] (Some "void ") [node "name" [] (Some n) []]].

Definition ref (t n : string) : Element := node t [("name", n)] None [].

Definition demo_remove : Element := node "remove" [] None [ref "command" "glFoo"].

Definition demo_feature_1_0 : Element :=
  node "feature" [("api", "gl"); ("name", "GL_VERSION_1_0"); ("number", "1.0")] None
    [node "require" [] None
       [ref "command" "glFoo"; ref "command" "glBar"; ref "enum" "GL_A"]].

Definition demo_feature_2_0 : Element :=
  node "feature" [("api", "gl"); ("name", "GL_VERSION_2_0"); ("number", "2.0")] None
    [demo_remove].

Definition demo_extension : Element :=
  node "extension" [("name", "GL_EXT_demo"); ("supported", "gl|gles2")] None
    [node "require" [] None
       [ref "enum" "GL_A"; ref "command" "glMissing"; ref "command" "glBar"]].

Definition demo_extensions : Element := node "extensions" [] None [demo_extension].

(** Version 1.0 requires [glFoo] and [glBar], version 2.0 removes [glFoo];
    an extension for two variants requires a command that does not exist. *)
Definition demo_registry : Element :=
  node "registry" [] None
    [ node "enums" [("namespace", "GL")] None
        [node "enum" [("name", "GL_A"); ("value", "0x1")] None []];
      node "commands" [] None [demo_command "glFoo"; demo_command "glBar"];
      demo_feature_1_0;
      demo_feature_2_0;
      demo_extensions ].

Definition demo_w0 : Interp :=
  {| fresh := 1%positive; spec := OpenGLSpec__init__ demo_registry |}.

(** A document with none of the containers. *)
Definition bare_registry : Element := node "registry" [] None [].

Definition bare_w0 : Interp :=
  {| fresh := 1%positive; spec := OpenGLSpec__init__ bare_registry |}.

(** The value a computation returned, or [dflt]. *)
Definition value_of {A} (dflt : A) (r : result A) : A :=
  match r with
  | Ok a => a
  | Raise _ => dflt
  end.

(** The objects the derivations build from [demo_registry]. *)
Definition demo_void : OGLType :=
  {| OGLType_type := Some "void"; is_pointer := 0; is_const := false |}.

Definition demo_GL_A : Enum :=
  {| Enum_id := 2; Enum_name := "GL_A"; Enum_value := "0x1";
     Enum_namespace := "GL"; Enum_type := None; Enum_group := None;
     Enum_vendor := None; Enum_comment := "" |}.

Definition demo_glFoo : Command :=
  {| Command_id := 3;
     proto := {| Proto_name := Some "glFoo"; ret := demo_void |};
     params := [] |}.

Definition demo_glBar : Command :=
  {| Command_id := 4;
     proto := {| Proto_name := Some "glBar"; ret := demo_void |};
     params := [] |}.

Definition demo_version_1_0 : Feature :=
  {| base := {| Extension_id := 1; Extension_name := "GL_VERSION_1_0";
                require := [OCommand demo_glFoo; OCommand demo_glBar;
                            OEnum demo_GL_A] |};
     number := [1; 0]; api := "gl" |}.

Definition demo_version_2_0 : Feature :=
  {| base := {| Extension_id := 5; Extension_name := "GL_VERSION_2_0";
                require := [] |};
     number := [2; 0]; api := "gl" |}.

(** The state once an object has been allocated in [demo_w0]. *)
Definition demo_w1 : Interp := (new demo_w0).2.

(** The registry of extensions while it is built: [P element api] tells
    which registrations have been made. *)
Definition registry_ok (P : Element → string → Prop) (w : Interp) : Prop :=
  ∃ d, _extensions (spec w) = Some d
  ∧ (∀ a k e, ext_at d a k = Some e →
       Extension_name e = k ∧ (Extension_id e < fresh w)%positive
       ∧ ∃ element, P element a ∧ attrib element !! "name" = Some k
           ∧ ∀ w'', grows w w'' →
               require e = omap (resolve (spec w'')) (chained "require" element))
  ∧ (∀ a1 k1 e1 a2 k2 e2, ext_at d a1 k1 = Some e1 → ext_at d a2 k2 = Some e2 →
       Extension_id e1 = Extension_id e2 → a1 = a2 ∧ k1 = k2)
  ∧ (∀ element a k, P element a → attrib element !! "name" = Some k →
       is_Some (ext_at d a k)).

(** ** [__str__] *)

Definition Enum__str__ (self : Enum) : string := Enum_name self.

(** ['{self.proto.name}'.format(self=self)] *)
Definition Command__str__ (self : Command) : string :=
  PyStr.of_opt (Proto_name (proto self)).

Definition Extension__str__ (self : Extension) : string := Extension_name self.

(** ** Notions used to state further properties *)

(** A condition on the state that a computation keeps, whether it returns
    or raises. *)
Definition stable {A} (I : Interp → Prop) (c : Py A) : Prop :=
  ∀ w, I w → I (c w).2.


(** A condition that depends on neither the identities in use nor the
    caches of the two tables. *)
Definition blind_to_tables (I : Interp → Prop) : Prop :=
  ∀ w n e c, I w →
    I {| fresh := n; spec := set_enums e (set_commands c (spec w)) |}.

(** The constant [e] is what the [enum] child [enum] of the [enums] node
    [element] describes. *)
Definition enum_of (element enum : Element) (e : Enum) : Prop :=
  tag enum = "enum"
  ∧ attrib enum !! "name" = Some (Enum_name e)
  ∧ attrib enum !! "value" = Some (Enum_value e)
  ∧ attrib element !! "namespace" = Some (Enum_namespace e)
  ∧ Enum_type e = attrib element !! "type"
  ∧ Enum_group e = attrib element !! "group"
  ∧ Enum_vendor e = attrib element !! "vendor"
  ∧ Enum_comment e = default "" (attrib element !! "comment").

(** The table of enums while it is built: [P element enum] tells which
    children have been read. *)
Definition enums_from (P : Element → Element → Prop) (w : Interp) : Prop :=
  ∃ t, _enums (spec w) = Some t
  ∧ (∀ k e, t !! k = Some e →
       Enum_name e = k ∧ ∃ element enum, P element enum ∧ enum_of element enum e)
  ∧ (∀ element enum, P element enum → tag enum ≠ "unused" →
       tag enum = "enum"
       ∧ ∃ k, attrib enum !! "name" = Some k ∧ is_Some (t !! k)).

(** [features[api][num]], when bound. *)
Definition feat_at (d : gmap string (list (list Z * Feature))) (api : string)
    (num : list Z) : option Feature :=
  l ← d !! api; odict_get num l.

(** The feature [f] is what the feature node [element] describes, from the
    state [w] on. *)
Definition feature_of (w : Interp) (element : Element) (f : Feature) : Prop :=
  attrib element !! "api" = Some (api f)
  ∧ version element = Ok (number f)
  ∧ attrib element !! "name" = Some (Extension_name (base f))
  ∧ ∀ w'', grows w w'' →
      require (base f) = omap (resolve (spec w'')) (chained "require" element).

(** The collection of features while it is built: [P element] tells which
    nodes have been read. *)
Definition features_ok (P : Element → Prop) (w : Interp) : Prop :=
  ∃ d, _features (spec w) = Some d
  ∧ (∀ a n f, feat_at d a n = Some f →
       api f = a ∧ number f = n ∧ (Extension_id (base f) < fresh w)%positive
       ∧ ∃ element, P element ∧ feature_of w element f)
  ∧ (∀ a1 n1 f1 a2 n2 f2, feat_at d a1 n1 = Some f1 → feat_at d a2 n2 = Some f2 →
       Extension_id (base f1) = Extension_id (base f2) → a1 = a2 ∧ n1 = n2)
  ∧ (∀ element a n, P element → attrib element !! "api" = Some a →
       version element = Ok n → is_Some (feat_at d a n))
  ∧ (∀ a l, d !! a = Some l → NoDup l.*1).

(** ** Further sample documents *)

(** A document whose only container is [groups]. *)
Definition groups_registry : Element :=
  node "registry" [] None
    [node "groups" [] None
       [node "group" [("name", "Boolean")] None
          [ref "enum" "GL_FALSE"; ref "enum" "GL_TRUE"]]].

Definition groups_w0 : Interp :=
  {| fresh := 1%positive; spec := OpenGLSpec__init__ groups_registry |}.

(** A document whose second [enum] has no [value] and whose [feature] has
    no [number]. *)
Definition broken_registry : Element :=
  node "registry" [] None
    [ node "enums" [("namespace", "GL")] None
        [node "enum" [("name", "GL_A"); ("value", "0x1")] None [];
         node "enum" [("name", "GL_B")] None []];
      node "feature" [("api", "gl"); ("name", "GL_VERSION_1_0")] None [] ].

Definition broken_w0 : Interp :=
  {| fresh := 1%positive; spec := OpenGLSpec__init__ broken_registry |}.

(** An extension with an entry of a kind the loop does not know. *)
Definition odd_extension : Element :=
  node "extension" [("name", "GL_EXT_odd"); ("supported", "gl")] None
    [node "require" [] None [ref "enum" "GL_A"; ref "group" "Boolean"]].

(** A feature node without [api]. *)
Definition apiless_feature : Element :=
  node "feature" [("name", "GL_VERSION_3_0"); ("number", "3.0")] None [demo_remove].

(** [demo_w0] once its two tables are derived, and the tables. *)
Definition demo_tables_w : Interp := (table "enum" demo_w0).2.

Definition demo_enums : gmap string Enum := value_of ∅ (enums demo_tables_w).1.

Definition demo_commands : gmap (option string) Command :=
  value_of ∅ (commands demo_tables_w).1.

(** The state with another profile. *)
Definition with_profile (p : string) (w : Interp) : Interp :=
  {| fresh := fresh w; spec := set_profile p (spec w) |}.

(** A computation that does the same whatever the profile is. *)
Definition profile_blind {A} (c : Py A) : Prop :=
  ∀ p w, c (with_profile p w) = ((c w).1, with_profile p (c w).2).

(** * Properties *)

(** ** The string methods on examples *)

Example strip_chars_const : PyStr.strip_chars "const" "const void **" = " void **".
Proof. reflexivity. Qed.

Example split_ws1_rest : PyStr.split_ws1 "  a  b c  " = ["a"; "b c  "].
Proof. reflexivity. Qed.

Example split_pipe : PyStr.split_char "|"%char "gl||gles2" = ["gl"; ""; "gles2"].
Proof. reflexivity. Qed.

Example replace_struct :
  PyStr.replace "struct " "" "struct _cl_context*" = "_cl_context*".
Proof. reflexivity. Qed.

Example int_examples :
  PyStr.int " 45 " = Some 45 ∧ PyStr.int "-3" = Some (-3) ∧ PyStr.int "4x" = None
  ∧ PyStr.int "" = None ∧ PyStr.int "+" = None.
Proof. repeat split; reflexivity. Qed.

(** ** Running a computation: inversion of a successful run *)

Lemma bind_Ok {A B} (c : Py A) (f : A → Py B) w b w' :
  (c ≫= f) w = (Ok b, w') →
  ∃ a w1, c w = (Ok a, w1) ∧ f a w1 = (Ok b, w').
Proof.
  unfold mbind, Py_bind. destruct (c w) as [[a|e] w1]; [eauto | discriminate].
Qed.

Lemma bind_run {A B} (c : Py A) (f : A → Py B) w a w1 :
  c w = (Ok a, w1) → (c ≫= f) w = f a w1.
Proof. unfold mbind, Py_bind. by intros ->. Qed.

Lemma bind_raise {A B} (c : Py A) (f : A → Py B) w e w1 :
  c w = (Raise e, w1) → (c ≫= f) w = (Raise e, w1).
Proof. unfold mbind, Py_bind. by intros ->. Qed.

Lemma result_bind_Ok {A B} (r : result A) (f : A → result B) b :
  r ≫= f = Ok b → ∃ a, r = Ok a ∧ f a = Ok b.
Proof. destruct r; [eauto | discriminate]. Qed.

Lemma lift_Ok {A} (r : result A) w a w' :
  lift r w = (Ok a, w') → r = Ok a ∧ w' = w.
Proof. unfold lift. by intros [= -> ->]. Qed.

Lemma ret_Ok {A} (x : A) w a w' :
  (mret x : Py A) w = (Ok a, w') → a = x ∧ w' = w.
Proof. unfold mret, Py_ret. by intros [= -> ->]. Qed.

Lemma update_Ok f w u w' :
  update f w = (Ok u, w') → w' = {| fresh := fresh w; spec := f (spec w) |}.
Proof. unfold update. by intros [= _ <-]. Qed.

Lemma new_Ok w i w' :
  new w = (Ok i, w') →
  i = fresh w ∧ w' = {| fresh := Pos.succ (fresh w); spec := spec w |}.
Proof. unfold new. by intros [= <- <-]. Qed.

Lemma self_Ok w s w' : self w = (Ok s, w') → s = spec w ∧ w' = w.
Proof. unfold self. by intros [= <- <-]. Qed.

Lemma raise_Ok {A} e w (a : A) w' : raise e w = (Ok a, w') → False.
Proof. unfold raise. discriminate. Qed.

(** Decompose a hypothesis stating that a computation returned. *)
Ltac run_inv H :=
  cbv beta in H;
  lazymatch type of H with
  | (_ ≫= _) _ = (Ok _, _) =>
      let a := fresh "a" in let w := fresh "w" in
      let H1 := fresh H in
      apply bind_Ok in H as (a & w & H1 & H); run_inv H1; run_inv H
  | lift _ _ = (Ok _, _) => apply lift_Ok in H as [H ->]
  | mret _ _ = (Ok _, _) =>
      let E := fresh in apply ret_Ok in H as [E ->]; try subst
  | update _ _ = (Ok _, _) => apply update_Ok in H as ->
  | new _ = (Ok _, _) => apply new_Ok in H as [-> ->]
  | self _ = (Ok _, _) => apply self_Ok in H as [-> ->]
  | raise _ _ = (Ok _, _) => by apply raise_Ok in H
  | _ => idtac
  end.

Lemma for_Ok {A} (body : A → Py unit) (I : list A → Interp → Prop) l w u w' :
  I [] w →
  (∀ pre x w1 w2, I pre w1 → body x w1 = (Ok tt, w2) → I (pre ++ [x]) w2) →
  for_ body l w = (Ok u, w') → I l w'.
Proof.
  intros H0 Hstep. revert w H0.
  assert (G : ∀ pre w, I pre w → for_ body l w = (Ok u, w') → I (pre ++ l) w').
  { induction l as [|x l IH]; intros pre w HI Hrun; simpl in Hrun.
    - apply ret_Ok in Hrun as [_ ->]. by rewrite app_nil_r.
    - apply bind_Ok in Hrun as ([] & w1 & Hx & Hrun).
      rewrite (assoc_L (++) pre [x] l : pre ++ x :: l = (pre ++ [x]) ++ l).
      eapply IH; [|done]. eauto. }
  intros w HI Hrun. by apply (G [] w).
Qed.


Lemma except_KeyError_Ok {A} (body handler : Py A) w a w' :
  except_KeyError body handler w = (Ok a, w') →
  body w = (Ok a, w') ∨ ∃ w1, body w = (Raise KeyError, w1) ∧ handler w1 = (Ok a, w').
Proof.
  unfold except_KeyError. destruct (body w) as [[x|[]] w1]; intros H; eauto; discriminate.
Qed.

#[global] Instance tables_step_refl : Reflexive tables_step.
Proof. intros w. split; auto. lia. Qed.

#[global] Instance tables_step_trans : Transitive tables_step.
Proof.
  intros a b c [] []. split; [congruence | auto | auto | lia].
Qed.

Lemma enums_cached w v : _enums (spec w) = Some v → enums w = (Ok v, w).
Proof. intros H. unfold enums, mbind, Py_bind, self. by rewrite H. Qed.

Lemma commands_cached w v : _commands (spec w) = Some v → commands w = (Ok v, w).
Proof. intros H. unfold commands, mbind, Py_bind, self. by rewrite H. Qed.

Lemma enums_Ok w v w' :
  enums w = (Ok v, w') → tables_step w w' ∧ _enums (spec w') = Some v.
Proof.
  unfold enums. intros H. run_inv H.
  destruct (_enums (spec w)) as [v0|] eqn:E.
  { run_inv H. by rewrite E. }
  run_inv H.
  set (I := λ w1 : Interp,
         forget_tables (spec w1) = forget_tables (spec w)
         ∧ is_Some (_enums (spec w1))
         ∧ _commands (spec w1) = _commands (spec w)
         ∧ (fresh w ≤ fresh w1)%positive).
  match goal with Hrun : for_ _ _ _ = (Ok _, ?wf) |- _ =>
    assert (HI : I wf); [eapply (for_Ok _ (λ _, I)); [| |exact Hrun]|] end.
  - repeat split; simpl; eauto. lia.
  - clear. intros _ element w1 w2 HI H. run_inv H.
    eapply (for_Ok _ (λ _, I)); [exact HI| |exact H].
    clear. intros _ enum w1 w2 (Hr & He & Hc & Hf) H.
    case_bool_decide; [by run_inv H|].
    run_inv H. unfold Enum_new in *.
    repeat match goal with
           | H : (if ?b then _ else _) _ = (Ok _, _) |- _ => destruct b; run_inv H
           | H : (_ ≫= _) _ = (Ok _, _) |- _ => run_inv H
           end.
    repeat split; simpl; eauto. lia.
  - destruct HI as (Hr & [v' He] & Hc & Hf). rewrite He. simpl.
    split; [split|]; auto.
    + by rewrite E.
    + intros ?. by rewrite Hc.
Qed.

Lemma mapM_Ok {A B} (f : A → Py B) (I : list B → Interp → Prop) l w bs w' :
  I [] w →
  (∀ pre x b w1 w2, I pre w1 → f x w1 = (Ok b, w2) → I (pre ++ [b]) w2) →
  mapM f l w = (Ok bs, w') → I bs w'.
Proof.
  intros H0 Hstep.
  assert (G : ∀ l pre w bs, I pre w → mapM f l w = (Ok bs, w') → I (pre ++ bs) w').
  { clear l w bs H0. induction l as [|x l IH]; intros pre w bs HI Hrun; simpl in Hrun.
    - apply ret_Ok in Hrun as [-> ->]. by rewrite app_nil_r.
    - apply bind_Ok in Hrun as (b & w1 & Hx & Hrun).
      apply bind_Ok in Hrun as (k & w2 & Hk & Hrun).
      apply ret_Ok in Hrun as [-> ->].
      rewrite (assoc_L (++) pre [b] k : pre ++ b :: k = (pre ++ [b]) ++ k).
      eapply IH; [|done]. eauto. }
  intros Hrun. by apply (G l [] w bs).
Qed.

Lemma forget_set_enums v s : forget_tables (set_enums v s) = forget_tables s.
Proof. done. Qed.

Lemma forget_set_commands v s : forget_tables (set_commands v s) = forget_tables s.
Proof. done. Qed.

Lemma commands_Ok w v w' :
  commands w = (Ok v, w') → tables_step w w' ∧ _commands (spec w') = Some v.
Proof.
  unfold commands. intros H. run_inv H.
  destruct (_commands (spec w)) as [v0|] eqn:E.
  { run_inv H. by rewrite E. }
  run_inv H.
  match goal with Hrun : mapM _ _ _ = (Ok _, ?wf) |- _ =>
    assert (HI : spec wf = spec w ∧ (fresh w ≤ fresh wf)%positive);
      [eapply (mapM_Ok _ (λ _ w1, spec w1 = spec w ∧ (fresh w ≤ fresh w1)%positive));
       [| |exact Hrun]|] end.
  - split; [done|lia].
  - clear. intros _ element b w1 w2 [Hs Hf] H. run_inv H.
    unfold Command_new in *.
    repeat match goal with
           | H : (_ ≫= _) _ = (Ok _, _) |- _ => run_inv H
           end.
    simpl. split; [done|lia].
  - destruct HI as [Hs Hf]. simpl. rewrite Hs.
    split; [split|]; simpl; auto. by rewrite E.
Qed.

Lemma table_Ok tg w data w' :
  table tg w = (Ok data, w') →
  tables_step w w' ∧
  ∃ e c, _enums (spec w') = Some e ∧ _commands (spec w') = Some c ∧
         ((tg = "enum" ∧ data = inl e) ∨ (tg = "command" ∧ data = inr c)).
Proof.
  unfold table. intros H.
  apply bind_Ok in H as (e & w1 & He & H).
  apply bind_Ok in H as (c & w2 & Hc & H).
  apply enums_Ok in He as [S1 He]. apply commands_Ok in Hc as [S2 Hc].
  assert (w' = w2 ∧ ((tg = "enum" ∧ data = inl e) ∨ (tg = "command" ∧ data = inr c)))
    as [-> Hd].
  { repeat case_bool_decide; run_inv H; auto. }
  split; [by etrans|]. exists e, c. split; [|done]. by apply S2.
Qed.

Lemma table_cached tg w e c :
  _enums (spec w) = Some e → _commands (spec w) = Some c →
  table tg w =
    (if bool_decide (tg = "enum") then Ok (inl e)
     else if bool_decide (tg = "command") then Ok (inr c)
     else Raise KeyError, w).
Proof.
  intros He Hc. unfold table.
  rewrite (bind_run _ _ _ _ _ (enums_cached _ _ He)).
  rewrite (bind_run _ _ _ _ _ (commands_cached _ _ Hc)).
  by repeat case_bool_decide.
Qed.

#[global] Instance grows_refl : Reflexive grows.
Proof. intros w. split; auto. lia. Qed.

#[global] Instance grows_trans : Transitive grows.
Proof.
  intros a b c [] []. split; [congruence | congruence | auto | auto | by etrans | lia].
Qed.

Lemma tables_step_grows w w' : tables_step w w' → grows w w'.
Proof.
  intros [Hr He Hc Hf]. split; auto.
  - apply (f_equal root) in Hr. done.
  - apply (f_equal _profile) in Hr. done.
  - apply (f_equal _remove) in Hr. simpl in Hr. by rewrite Hr.
Qed.

Lemma entry_inl et r :
  entry (inl et) r =
    match attrib r !! "name" ≫= (et !!.) with
    | Some e => Ok (OEnum e)
    | None => Raise KeyError
    end.
Proof.
  unfold entry, getitem. destruct (attrib r !! "name") as [n|]; simpl; [|done].
  by destruct (et !! n).
Qed.

Lemma entry_inr ct r :
  entry (inr ct) r =
    match attrib r !! "name" ≫= (λ n, ct !! Some n) with
    | Some c => Ok (OCommand c)
    | None => Raise KeyError
    end.
Proof.
  unfold entry, getitem. destruct (attrib r !! "name") as [n|]; simpl; [|done].
  by destruct (ct !! Some n).
Qed.

(** Looking an entry up either finds the object or raises [KeyError]. *)
Lemma entry_lookup et ct r data :
  (tag r = "enum" ∧ data = inl et) ∨ (tag r = "command" ∧ data = inr ct) →
  entry data r =
    match lookup_entry et ct r with
    | Some o => Ok o
    | None => Raise KeyError
    end.
Proof.
  intros [[Ht ->]|[Ht ->]]; [rewrite entry_inl|rewrite entry_inr];
    unfold lookup_entry; rewrite Ht; simpl;
    destruct (attrib r !! "name") as [n|]; simpl; try done.
  - by destruct (et !! n).
  - by destruct (ct !! Some n).
Qed.

Lemma lookup_entry_type et ct r : tag r = "type" → lookup_entry et ct r = None.
Proof.
  intros Ht. unfold lookup_entry. rewrite Ht. simpl. by destruct (attrib r !! "name").
Qed.

Lemma for_acc_Ok {A S} (body : S → A → Py S) (I : list A → S → Interp → Prop)
    l acc w acc' w' :
  I [] acc w →
  (∀ pre x a a' w1 w2, I pre a w1 → body a x w1 = (Ok a', w2) → I (pre ++ [x]) a' w2) →
  for_acc body acc l w = (Ok acc', w') → I l acc' w'.
Proof.
  intros H0 Hstep.
  assert (G : ∀ l pre a w, I pre a w → for_acc body a l w = (Ok acc', w') →
                           I (pre ++ l) acc' w').
  { clear l acc w H0. induction l as [|x l IH]; intros pre a w HI Hrun; simpl in Hrun.
    - apply ret_Ok in Hrun as [-> ->]. by rewrite app_nil_r.
    - apply bind_Ok in Hrun as (a' & w1 & Hx & Hrun).
      rewrite (assoc_L (++) pre [x] l : pre ++ x :: l = (pre ++ [x]) ++ l).
      eapply IH; [|done]. eauto. }
  intros Hrun. by apply (G l [] acc w).
Qed.

Lemma set_in_add o s : set_in o (set_add o s) = true.
Proof.
  unfold set_in, set_add. apply bool_decide_eq_true.
  destruct (s !! id_of o) eqn:E; [by rewrite E|]. rewrite lookup_insert_eq. eauto.
Qed.

Lemma set_add_subseteq o s : s ⊆ set_add o s.
Proof.
  unfold set_add. destruct (s !! id_of o) eqn:E; [done|]. by apply insert_subseteq.
Qed.

Lemma set_in_subseteq o s s' : s ⊆ s' → set_in o s = true → set_in o s' = true.
Proof.
  unfold set_in. rewrite !bool_decide_eq_true. intros Hs [x Hx].
  exists x. eapply lookup_weaken; eauto.
Qed.

Lemma cached_grows w w' et ct : cached w et ct → grows w w' → cached w' et ct.
Proof. intros [He Hc] G. split; [by apply (g_enums _ _ G)|by apply (g_commands _ _ G)]. Qed.

Lemma cached_inj w et ct et' ct' :
  cached w et ct → cached w et' ct' → et' = et ∧ ct' = ct.
Proof. intros [He Hc] [He' Hc']. split; congruence. Qed.

Lemma resolve_cached w et ct r :
  cached w et ct → resolve (spec w) r = lookup_entry et ct r.
Proof. intros [He Hc]. unfold resolve. by rewrite He, Hc. Qed.

Lemma resolve_type s r : tag r = "type" → resolve s r = None.
Proof.
  intros Ht. unfold resolve.
  destruct (_enums s); simpl; [|done]. destruct (_commands s); simpl; [|done].
  by apply lookup_entry_type.
Qed.

Lemma resolve_Some s r o :
  resolve s r = Some o →
  ∃ et ct, _enums s = Some et ∧ _commands s = Some ct ∧ lookup_entry et ct r = Some o.
Proof.
  unfold resolve. destruct (_enums s) as [et|]; simpl; [|done].
  destruct (_commands s) as [ct|]; simpl; [|done]. eauto.
Qed.

(** A successful construction of an extension: its require list is what
    its require entries name in the tables, in order, from then on. *)
Lemma Extension__init___Ok i element w e w' :
  Extension__init__ i element w = (Ok e, w') →
  tables_step w w' ∧ Extension_id e = i
  ∧ attrib element !! "name" = Some (Extension_name e)
  ∧ ∀ w'', grows w' w'' →
      require e = omap (resolve (spec w'')) (chained "require" element).
Proof.
  unfold Extension__init__. intros H. run_inv H.
  match goal with Hn : getitem _ _ = Ok ?n |- _ =>
    unfold getitem in Hn; destruct (attrib element !! "name") as [n'|] eqn:En;
    [injection Hn as ->|discriminate] end.
  simpl.
  match goal with Hrun : for_acc _ _ _ _ = (Ok ?acc, _) |- _ =>
    eapply (for_acc_Ok _ (λ pre acc w1,
      tables_step w w1 ∧
      ∀ w'', grows w1 w'' → acc = omap (resolve (spec w'')) pre)) in Hrun
      as [S1 Hreq] end.
  - done.
  - split; [done|]. done.
  - clear. intros pre r acc acc' w1 w2 [S1 Hacc] H. unfold require_body in H.
    case_bool_decide as Ht.
    { run_inv H. split; [done|]. intros w'' G.
      rewrite omap_app. simpl. rewrite resolve_type by done.
      rewrite app_nil_r. eauto. }
    apply bind_Ok in H as (data & wt & Hd & H).
    apply table_Ok in Hd as (St & et & ct & He & Hc & Hdata).
    assert (Hent := entry_lookup et ct r data Hdata).
    assert (w2 = wt ∧ acc' = acc ++ from_option (λ o, [o]) [] (lookup_entry et ct r))
      as [-> ->].
    { apply except_KeyError_Ok in H as [H|(w3 & H & H')].
      - run_inv H.
        match goal with Ho : entry data r = Ok _ |- _ => revert Ho end.
        rewrite Hent.
        destruct (lookup_entry et ct r); [intros [= ->]; split; reflexivity|by intros [=]].
      - run_inv H'. revert H. unfold mbind, Py_bind, lift, mret, Py_ret. rewrite Hent.
        destruct (lookup_entry et ct r); [by intros [=]|intros [= ->]].
        simpl. by rewrite app_nil_r. }
    split; [by etrans|]. intros w'' G.
    rewrite omap_app. simpl.
    rewrite (resolve_cached w'' et ct).
    2:{ eapply cached_grows; [|done]. by split. }
    f_equal;
      first [ by destruct (lookup_entry et ct r)
            | apply Hacc; etrans; [|done]; by apply tables_step_grows ].
Qed.

Lemma grows_update_remove w o :
  grows w {| fresh := fresh w; spec := remove_add o (spec w) |}.
Proof. split; simpl; auto; [apply set_add_subseteq | lia]. Qed.

Lemma grows_new w : grows w {| fresh := Pos.succ (fresh w); spec := spec w |}.
Proof. split; simpl; auto. lia. Qed.

(** A successful construction of a feature: besides, every entry of its
    remove blocks that names an object of the tables has put it in the
    removal set, where it stays. *)
Lemma Feature__init___Ok i element w f w' :
  Feature__init__ i element w = (Ok f, w') →
  grows w w' ∧ Extension_id (base f) = i
  ∧ attrib element !! "name" = Some (Extension_name (base f))
  ∧ version element = Ok (number f)
  ∧ attrib element !! "api" = Some (api f)
  ∧ (∀ w'', grows w' w'' →
       require (base f) = omap (resolve (spec w'')) (chained "require" element))
  ∧ (∀ r o w'', r ∈ chained "remove" element →
       grows w' w'' → resolve (spec w'') r = Some o →
       set_in o (_remove (spec w'')) = true).
Proof.
  unfold Feature__init__. intros H.
  apply bind_Ok in H as (ext & w1 & Hext & H).
  apply bind_Ok in H as ([] & w2 & Hloop & H).
  apply bind_Ok in H as (num & w3 & Hnum & H). apply lift_Ok in Hnum as [Hnum ->].
  apply bind_Ok in H as (a & w3 & Hapi & H). apply lift_Ok in Hapi as [Hapi ->].
  apply ret_Ok in H as [-> ->]. simpl.
  apply Extension__init___Ok in Hext as (S1 & Hid & Hname & Hreq).
  apply tables_step_grows in S1.
  eapply (for_Ok _ (λ pre w2,
    grows w1 w2 ∧
    ∀ r o w'', r ∈ pre → grows w2 w'' → resolve (spec w'') r = Some o →
      set_in o (_remove (spec w'')) = true))
    in Hloop as [S2 Hrem].
  - split_and!; try done.
    + by etrans.
    + unfold getitem in Hapi. by destruct (attrib element !! "api"); simplify_eq.
    + intros w'' G. apply Hreq. by etrans.
  - split; [done|]. intros r o w'' Hr. by apply elem_of_nil in Hr.
  - clear. intros pre r w1' w2 [S2 Hrem] H. unfold remove_body in H.
    case_bool_decide as Ht.
    { apply ret_Ok in H as [_ ->]. split; [done|].
      intros r' o w'' [Hr'| ->%list_elem_of_singleton]%elem_of_app G Hl; [eauto|].
      by rewrite resolve_type in Hl. }
    apply bind_Ok in H as (data & wt & Hd & H).
    apply table_Ok in Hd as (St & et & ct & He & Hc & Hdata).
    assert (Hent := entry_lookup et ct r data Hdata).
    apply tables_step_grows in St.
    assert (grows wt w2 ∧
            ∀ o, lookup_entry et ct r = Some o → set_in o (_remove (spec w2)) = true)
      as [Sr Hin].
    { apply except_KeyError_Ok in H as [H|(w3 & H & H')].
      - apply bind_Ok in H as (o & w3 & Ho & H). apply lift_Ok in Ho as [Ho ->].
        apply update_Ok in H as ->. split; [apply grows_update_remove|].
        intros o' Hl. rewrite Hent, Hl in Ho. injection Ho as ->.
        simpl. apply set_in_add.
      - apply ret_Ok in H' as [_ ->]. revert H. unfold mbind, Py_bind, lift.
        rewrite Hent. destruct (lookup_entry et ct r); [by intros [=]|intros [= ->]].
        split; [done|]. by intros o [=]. }
    split; [by repeat (etrans; [eassumption|])|].
    intros r' o w'' [Hr'| ->%list_elem_of_singleton]%elem_of_app G Hl.
    + eapply Hrem; eauto. by repeat (etrans; [eassumption|]).
    + rewrite (resolve_cached w'' et ct) in Hl.
      2:{ eapply cached_grows; [by split|]. by etrans. }
      eapply set_in_subseteq; [apply (g_remove _ _ G)|]. eauto.
Qed.

Lemma Feature_new_Ok element w f w' :
  Feature_new element w = (Ok f, w') →
  grows w w'
  ∧ Extension_id (base f) = fresh w
  ∧ (fresh w < fresh w')%positive
  ∧ attrib element !! "name" = Some (Extension_name (base f))
  ∧ version element = Ok (number f)
  ∧ attrib element !! "api" = Some (api f)
  ∧ (∀ w'', grows w' w'' →
       require (base f) = omap (resolve (spec w'')) (chained "require" element))
  ∧ (∀ r o w'', r ∈ chained "remove" element →
       grows w' w'' → resolve (spec w'') r = Some o →
       set_in o (_remove (spec w'')) = true).
Proof.
  unfold Feature_new. intros H.
  apply bind_Ok in H as (i & w1 & Hi & H). apply new_Ok in Hi as [-> ->].
  apply Feature__init___Ok in H as (G & Hid & Hrest).
  split; [|split; [done|split; [|done]]].
  - etrans; [apply grows_new|done].
  - pose proof (g_fresh _ _ G) as Hf. simpl in Hf. lia.
Qed.

Lemma grows_features_setitem w a n f :
  grows w {| fresh := fresh w; spec := features_setitem a n f (spec w) |}.
Proof. split; simpl; auto. lia. Qed.

(** After a successful derivation of [features], whatever a remove block of
    any feature node names in the tables is in the removal set. *)
Lemma features_Ok w fs w' :
  _features (spec w) = None →
  features w = (Ok fs, w') →
  grows w w' ∧ _features (spec w') = Some fs
  ∧ ∀ element r o w'',
      element ∈ Element_iter "feature" (root (spec w)) →
      r ∈ chained "remove" element →
      grows w' w'' → resolve (spec w'') r = Some o →
      set_in o (_remove (spec w'')) = true.
Proof.
  intros Hnone H. unfold features in H.
  apply bind_Ok in H as (s & w1 & Hs & H). apply self_Ok in Hs as [-> ->].
  rewrite Hnone in H.
  apply bind_Ok in H as ([] & w1 & Hu & H). apply update_Ok in Hu as ->.
  apply bind_Ok in H as ([] & w2 & Hloop & H).
  apply bind_Ok in H as (s & w3 & Hs & H). apply self_Ok in Hs as [-> ->].
  apply ret_Ok in H as [-> ->].
  eapply (for_Ok _ (λ pre w2,
    grows w w2 ∧ is_Some (_features (spec w2)) ∧
    ∀ element r o w'', element ∈ pre → r ∈ chained "remove" element →
      grows w2 w'' → resolve (spec w'') r = Some o →
      set_in o (_remove (spec w'')) = true))
    in Hloop as (G & [v Hv] & Hrem).
  - rewrite Hv. simpl. split_and!; [done..|]. eauto.
  - split_and!.
    + split; simpl; auto. lia.
    + simpl. eauto.
    + intros element r o w'' Hel. by apply elem_of_nil in Hel.
  - clear. intros pre element w1 w2 (G & Hf & Hrem) H. cbv beta in H.
    apply bind_Ok in H as (num & w3 & Hnum & H). apply lift_Ok in Hnum as [Hnum ->].
    apply bind_Ok in H as (f & w3 & Hnew & H).
    apply bind_Ok in H as (a & w4 & Hapi & H). apply lift_Ok in Hapi as [Hapi ->].
    apply update_Ok in H as ->.
    apply Feature_new_Ok in Hnew as (G1 & _ & _ & _ & _ & _ & _ & Hrem1).
    pose proof (grows_features_setitem w3 a num f) as G2.
    split_and!.
    + by repeat (etrans; [eassumption|]).
    + simpl. eauto.
    + intros el r o w'' [Hel| ->%list_elem_of_singleton]%elem_of_app Hr G3 Hl.
      * eapply Hrem; eauto. by repeat (etrans; [eassumption|]).
      * eapply Hrem1; eauto. by etrans.
Qed.

Lemma not_in_filter_removed {A} (inj : A → object) (x : A) (l : list A) s :
  set_in (inj x) s = true →
  x ∉ filter (λ y, set_in (inj y) s = false) l.
Proof. intros Hin [Hx _]%list_elem_of_filter. congruence. Qed.

(** C1.  The removal set belongs to the specification, not to the feature
    that removes.  Once [features] has been derived and the profile is
    set to ["core"], every command or constant [o] that a remove block of
    any feature node names in the tables is in [removed], and no feature
    [f] of the collection shows it in its [functions] or [enums] view,
    whatever the version of [f]. *)
Theorem removal_set_is_global w0 fs w1 w2 :
  _features (spec w0) = None →
  features w0 = (Ok fs, w1) →
  profile_setter "core" w1 = (Ok (), w2) →
  ∀ element r o api vs num f,
    element ∈ Element_iter "feature" (root (spec w0)) →
    r ∈ chained "remove" element →
    resolve (spec w2) r = Some o →
    fs !! api = Some vs → odict_get num vs = Some f →
    set_in o (removed (spec w2)) = true
    ∧ match o with
      | OEnum e => e ∉ Feature_enums f (spec w2)
      | OCommand c => c ∉ Feature_functions f (spec w2)
      end.
Proof.
  intros Hnone Hfs Hset element r o a vs num f Hel Hr Hl _ _.
  unfold profile_setter in Hset. simpl in Hset. apply update_Ok in Hset as ->.
  apply features_Ok in Hfs as (_ & _ & Hrem); [|done].
  assert (Hin : set_in o (removed (spec {| fresh := fresh w1;
                                           spec := set_profile "core" (spec w1) |})) = true).
  { unfold removed. simpl.
    apply (Hrem element r o w1); [done|done|reflexivity|exact Hl]. }
  split; [done|].
  destruct o as [e|c].
  - by apply (not_in_filter_removed OEnum).
  - by apply (not_in_filter_removed OCommand).
Qed.

(** ** One object per name in the derived tables *)

Lemma enums_table_ok_insert n t name e :
  enums_table_ok n t → Enum_name e = name → Enum_id e = n →
  enums_table_ok (Pos.succ n) (<[name := e]> t).
Proof.
  intros [Hk Hi] Hn Hid. split.
  - intros k e' [[<- <-]|[Hne He']]%lookup_insert_Some.
    + split; [done|lia].
    + destruct (Hk _ _ He'). split; [done|lia].
  - intros k1 k2 e1 e2 [[<- <-]|[Hne1 H1]]%lookup_insert_Some
                       [[<- <-]|[Hne2 H2]]%lookup_insert_Some Heq; try done.
    + destruct (Hk _ _ H2). lia.
    + destruct (Hk _ _ H1). lia.
    + eauto.
Qed.

Lemma enums_Ok_table w t w' :
  _enums (spec w) = None → enums w = (Ok t, w') → enums_table_ok (fresh w') t.
Proof.
  intros E H. unfold enums in H. run_inv H. rewrite E in H. run_inv H.
  set (I := λ w1 : Interp,
         ∃ t, _enums (spec w1) = Some t ∧ enums_table_ok (fresh w1) t).
  match goal with Hrun : for_ _ _ _ = (Ok _, ?wf) |- _ =>
    assert (HI : I wf); [eapply (for_Ok _ (λ _, I)); [| |exact Hrun]|] end.
  - exists ∅. split; [done|]. split; intros *; by rewrite lookup_empty.
  - clear. intros _ element w1 w2 HI H. run_inv H.
    eapply (for_Ok _ (λ _, I)); [exact HI| |exact H].
    clear. intros _ enum w1 w2 (t & Ht & Hok) H.
    case_bool_decide; [run_inv H; by exists t|].
    run_inv H. unfold Enum_new in *.
    repeat match goal with
           | H : (if ?b then _ else _) _ = (Ok _, _) |- _ => destruct b; run_inv H
           | H : (_ ≫= _) _ = (Ok _, _) |- _ => run_inv H
           end.
    eexists. split; [simpl; reflexivity|]. simpl. rewrite Ht. simpl.
    by apply enums_table_ok_insert.
  - destruct HI as (t' & Ht & Hok). by rewrite Ht.
Qed.

Lemma dict_of_lookup `{Countable K} {V} (l : list (K * V)) k v :
  dict_of l !! k = Some v → (k, v) ∈ l.
Proof.
  unfold dict_of.
  assert (G : ∀ d : gmap K V,
             foldl (λ d kv, <[kv.1 := kv.2]> d) d l !! k = Some v →
                   (k, v) ∈ l ∨ d !! k = Some v).
  { induction l as [|[k' v'] l IH]; intros d Hl; simpl in *; [by right|].
    destruct (IH _ Hl) as [Hin|Hd]; [left; by right|].
    apply lookup_insert_Some in Hd as [[<- <-]|[_ Hd]]; [left; by left|by right]. }
  intros Hl. destruct (G ∅ Hl) as [?|Hd]; [done|]. by rewrite lookup_empty in Hd.
Qed.

Lemma Command__init___name i element c :
  Command__init__ i element = Ok c →
  Command_id c = i ∧
  find_of "name" (Element_find "proto" element) ≫= text_of = Ok (Proto_name (proto c)).
Proof.
  unfold Command__init__. intros H.
  apply result_bind_Ok in H as (p & Hp & H).
  apply result_bind_Ok in H as (ps & Hps & H). injection H as <-. simpl.
  split; [done|].
  unfold Proto__init__ in Hp.
  apply result_bind_Ok in Hp as (n & Hn & Hp).
  apply result_bind_Ok in Hp as (r & Hr & Hp). injection Hp as <-. done.
Qed.

Lemma commands_Ok_pairs w t w' :
  _commands (spec w) = None → commands w = (Ok t, w') →
  ∃ l, t = dict_of l ∧ commands_pairs_ok (fresh w') l.
Proof.
  intros E H. unfold commands in H. run_inv H. rewrite E in H. run_inv H.
  match goal with Hrun : mapM _ _ _ = (Ok ?l, ?wf) |- _ =>
    exists l; split; [done|]; simpl;
    eapply (mapM_Ok _ (λ l w1, commands_pairs_ok (fresh w1) l)); [| |exact Hrun] end.
  - split; intros *; by intros ?%elem_of_nil.
  - clear. intros pre element [k c] w1 w2 [Hk Hi] H. run_inv H.
    unfold Command_new in *.
    repeat match goal with
           | H : (_ ≫= _) _ = (Ok _, _) |- _ => run_inv H
           end.
    simpl.
    match goal with Hc : Command__init__ _ _ = Ok _ |- _ =>
      apply Command__init___name in Hc as [Hid Hname] end.
    match goal with Hp : (k, c) = _ |- _ => injection Hp as -> -> end.
    match goal with Hk' : _ ≫= text_of = Ok ?a |- _ =>
      is_var a; rewrite Hk' in Hname; injection Hname as -> end.
    split.
    + intros k' c' [Hin|[= -> ->]%list_elem_of_singleton]%elem_of_app.
      * destruct (Hk _ _ Hin). split; [done|lia].
      * split; [done|lia].
    + intros k1 k2 c1 c2 [H1|[= -> ->]%list_elem_of_singleton]%elem_of_app
                         [H2|[= -> ->]%list_elem_of_singleton]%elem_of_app Heq;
        try done.
      * eauto.
      * destruct (Hk _ _ H1). lia.
      * destruct (Hk _ _ H2). lia.
Qed.

(** ** Construction goes through whatever the entries name *)

Lemma table_known r w et ct :
  known_tag r → tag r ≠ "type" → cached w et ct →
  ∃ data, table (tag r) w = (Ok data, w)
          ∧ ((tag r = "enum" ∧ data = inl et) ∨ (tag r = "command" ∧ data = inr ct)).
Proof.
  intros Hk Ht [He Hc]. rewrite (table_cached _ _ _ _ He Hc).
  unfold known_tag in Hk. rewrite !elem_of_cons, elem_of_nil in Hk.
  destruct Hk as [?|[Hk|[Hk|[]]]]; [done|..]; rewrite Hk; simpl; eauto.
Qed.

Lemma require_body_cached w et ct acc r :
  cached w et ct → known_tag r →
  require_body acc r w = (Ok (acc ++ from_option (λ o, [o]) [] (lookup_entry et ct r)), w).
Proof.
  intros C Hk. unfold require_body. case_bool_decide as Ht.
  { rewrite lookup_entry_type by done. simpl. by rewrite app_nil_r. }
  destruct (table_known r w et ct Hk Ht C) as (data & Hd & Hdata).
  rewrite (bind_run _ _ _ _ _ Hd).
  unfold except_KeyError, mbind, Py_bind, lift. rewrite (entry_lookup et ct r data Hdata).
  destruct (lookup_entry et ct r); simpl; [done|]. by rewrite app_nil_r.
Qed.

Lemma require_loop_cached w et ct acc l :
  cached w et ct → Forall known_tag l →
  for_acc require_body acc l w = (Ok (acc ++ omap (lookup_entry et ct) l), w).
Proof.
  intros C Hl. revert acc. induction Hl as [|r l Hr Hl IH]; intros acc; simpl.
  { unfold mret, Py_ret. by rewrite app_nil_r. }
  rewrite (bind_run _ _ _ _ _ (require_body_cached w et ct acc r C Hr)).
  rewrite IH. rewrite <- (assoc_L (++)). by destruct (lookup_entry et ct r).
Qed.

Lemma derive_tables w et w1 ct w2 :
  enums w = (Ok et, w1) → commands w1 = (Ok ct, w2) →
  cached w2 et ct ∧ tables_step w w2.
Proof.
  intros [S1 He]%enums_Ok [S2 Hc]%commands_Ok. split; [|by etrans].
  split; [by apply S2|done].
Qed.

Lemma table_derive r w et w1 ct w2 :
  enums w = (Ok et, w1) → commands w1 = (Ok ct, w2) →
  known_tag r → tag r ≠ "type" →
  ∃ data, table (tag r) w = (Ok data, w2)
          ∧ ((tag r = "enum" ∧ data = inl et) ∨ (tag r = "command" ∧ data = inr ct)).
Proof.
  intros He Hc Hk Ht. unfold table.
  rewrite (bind_run _ _ _ _ _ He), (bind_run _ _ _ _ _ Hc).
  unfold known_tag in Hk. rewrite !elem_of_cons, elem_of_nil in Hk.
  destruct Hk as [?|[Hk|[Hk|[]]]]; [done|..]; rewrite Hk; simpl; eauto.
Qed.

Lemma require_body_derive w et w1 ct w2 acc r :
  enums w = (Ok et, w1) → commands w1 = (Ok ct, w2) → known_tag r →
  require_body acc r w =
    (Ok (acc ++ from_option (λ o, [o]) [] (lookup_entry et ct r)),
     if is_type r then w else w2).
Proof.
  intros He Hc Hr. unfold require_body, is_type. case_bool_decide as Ht.
  { rewrite lookup_entry_type by done. simpl. by rewrite app_nil_r. }
  destruct (table_derive r w et w1 ct w2 He Hc Hr Ht) as (data & Hd & Hdata).
  rewrite (bind_run _ _ _ _ _ Hd).
  unfold except_KeyError, mbind, Py_bind, lift. rewrite (entry_lookup et ct r data Hdata).
  destruct (lookup_entry et ct r); simpl; [done|]. by rewrite app_nil_r.
Qed.

Lemma require_loop w et w1 ct w2 acc l :
  enums w = (Ok et, w1) → commands w1 = (Ok ct, w2) → Forall known_tag l →
  for_acc require_body acc l w =
    (Ok (acc ++ omap (lookup_entry et ct) l), if forallb is_type l then w else w2).
Proof.
  intros He Hc Hl. revert acc. induction Hl as [|r l Hr Hl IH]; intros acc; simpl.
  { unfold mret, Py_ret. by rewrite app_nil_r. }
  rewrite (bind_run _ _ _ _ _ (require_body_derive w et w1 ct w2 acc r He Hc Hr)).
  destruct (derive_tables _ _ _ _ _ He Hc) as [C _].
  destruct (is_type r); simpl.
  - rewrite IH. rewrite <- (assoc_L (++)). by destruct (lookup_entry et ct r).
  - rewrite (require_loop_cached w2 et ct _ l C Hl).
    rewrite <- (assoc_L (++)). by destruct (lookup_entry et ct r).
Qed.

Lemma cached_add_all w et ct os : cached w et ct → cached (add_all os w) et ct.
Proof.
  unfold cached, add_all. simpl. revert w.
  induction os as [|o os IH]; intros [n s]; simpl; [done|].
  intros C. by apply (IH {| fresh := n; spec := remove_add o s |}).
Qed.

Lemma add_all_cons o os w :
  add_all (o :: os) w = add_all os {| fresh := fresh w; spec := remove_add o (spec w) |}.
Proof. done. Qed.

Lemma add_all_nil w : add_all [] w = w.
Proof. by destruct w. Qed.

Lemma remove_body_cached w et ct r :
  cached w et ct → known_tag r →
  remove_body r w = (Ok (), add_all (from_option (λ o, [o]) [] (lookup_entry et ct r)) w).
Proof.
  intros C Hk. unfold remove_body. case_bool_decide as Ht.
  { rewrite lookup_entry_type by done. simpl. by rewrite add_all_nil. }
  destruct (table_known r w et ct Hk Ht C) as (data & Hd & Hdata).
  rewrite (bind_run _ _ _ _ _ Hd).
  unfold except_KeyError, mbind, Py_bind, lift. rewrite (entry_lookup et ct r data Hdata).
  destruct (lookup_entry et ct r); simpl; [done|]. by rewrite add_all_nil.
Qed.

Lemma remove_loop_cached w et ct l :
  Forall known_tag l → cached w et ct →
  for_ remove_body l w = (Ok (), add_all (omap (lookup_entry et ct) l) w).
Proof.
  intros Hl C. revert w C. induction Hl as [|r l Hr Hl IH]; intros w C; simpl.
  { by rewrite add_all_nil. }
  rewrite (bind_run _ _ _ _ _ (remove_body_cached w et ct r C Hr)).
  rewrite IH by by apply cached_add_all.
  destruct (lookup_entry et ct r); simpl; [done|]. by rewrite add_all_nil.
Qed.

Lemma remove_body_derive w et w1 ct w2 r :
  enums w = (Ok et, w1) → commands w1 = (Ok ct, w2) → known_tag r →
  remove_body r w =
    (Ok (), if is_type r then w
            else add_all (from_option (λ o, [o]) [] (lookup_entry et ct r)) w2).
Proof.
  intros He Hc Hr. unfold remove_body, is_type. case_bool_decide as Ht; [done|].
  destruct (table_derive r w et w1 ct w2 He Hc Hr Ht) as (data & Hd & Hdata).
  rewrite (bind_run _ _ _ _ _ Hd).
  unfold except_KeyError, mbind, Py_bind, lift. rewrite (entry_lookup et ct r data Hdata).
  destruct (lookup_entry et ct r); simpl; [done|]. by rewrite add_all_nil.
Qed.

Lemma remove_loop w et w1 ct w2 l :
  enums w = (Ok et, w1) → commands w1 = (Ok ct, w2) → Forall known_tag l →
  for_ remove_body l w =
    (Ok (), if forallb is_type l then w
            else add_all (omap (lookup_entry et ct) l) w2).
Proof.
  intros He Hc Hl. induction Hl as [|r l Hr Hl IH]; simpl; [done|].
  rewrite (bind_run _ _ _ _ _ (remove_body_derive w et w1 ct w2 r He Hc Hr)).
  destruct (derive_tables _ _ _ _ _ He Hc) as [C _].
  destruct (is_type r) eqn:Ht; simpl.
  - rewrite IH. unfold is_type in Ht. apply bool_decide_eq_true in Ht.
    by rewrite lookup_entry_type.
  - rewrite (remove_loop_cached _ et ct l Hl); [|by apply cached_add_all].
    destruct (lookup_entry et ct r); simpl; [done|]. by rewrite add_all_nil.
Qed.

Lemma remove_add_all os w :
  _remove (spec (add_all os w)) = foldl (λ s o, set_add o s) (_remove (spec w)) os.
Proof.
  revert w. induction os as [|o os IH]; intros w; [done|].
  rewrite add_all_cons, IH. done.
Qed.

Lemma omap_all_type et ct l :
  forallb is_type l = true → omap (lookup_entry et ct) l = [].
Proof.
  induction l as [|r l IH]; simpl; [done|].
  intros [Hr Hl]%andb_true_iff. unfold is_type in Hr. apply bool_decide_eq_true in Hr.
  rewrite lookup_entry_type by done. auto.
Qed.

Lemma Extension__init___run w et w1 ct w2 i element name :
  enums w = (Ok et, w1) → commands w1 = (Ok ct, w2) →
  attrib element !! "name" = Some name →
  Forall known_tag (chained "require" element) →
  Extension__init__ i element w =
    (Ok {| Extension_id := i; Extension_name := name;
           require := omap (lookup_entry et ct) (chained "require" element) |},
     if forallb is_type (chained "require" element) then w else w2).
Proof.
  intros He Hc Hn Hl. unfold Extension__init__.
  assert (Hname : lift (getitem (attrib element) "name") w = (Ok name, w)).
  { unfold lift, getitem. by rewrite Hn. }
  rewrite (bind_run _ _ _ _ _ Hname).
  by rewrite (bind_run _ _ _ _ _ (require_loop w et w1 ct w2 [] _ He Hc Hl)).
Qed.

Lemma lookup_entry_Some et ct r o :
  lookup_entry et ct r = Some o →
  ∃ n, attrib r !! "name" = Some n
       ∧ ((tag r = "enum" ∧ ∃ e, et !! n = Some e ∧ o = OEnum e)
          ∨ (tag r = "command" ∧ ∃ c, ct !! Some n = Some c ∧ o = OCommand c)).
Proof.
  unfold lookup_entry. destruct (attrib r !! "name") as [n|]; simpl; [|done].
  intros H. exists n. split; [done|].
  repeat case_bool_decide; [left|right|done].
  - destruct (et !! n) as [e|]; simpl in H; [|done]. injection H as <-. eauto.
  - destruct (ct !! Some n) as [c|]; simpl in H; [|done]. injection H as <-. eauto.
Qed.

(** C4.  Entries that name nothing in the tables are skipped.  Provided
    the two tables derive when the constructor asks for them, the element
    has a [name] and the entries are of kind type, enum or command, the
    constructor of an extension returns, and its require list holds, in
    order, exactly the objects the entries name in the tables: an enum or
    command entry whose name is not a key contributes nothing, so the two
    views hold only objects found in the tables.  The constructor of a
    feature returns likewise (given its [number] and [api]) and adds to
    the removal set exactly the objects its remove entries name. *)
Theorem unresolved_entries_are_skipped w et w1 ct w2 i element name :
  enums w = (Ok et, w1) → commands w1 = (Ok ct, w2) →
  attrib element !! "name" = Some name →
  Forall known_tag (chained "require" element) →
  let ext := {| Extension_id := i; Extension_name := name;
                require := omap (lookup_entry et ct) (chained "require" element) |} in
  (∀ r n, attrib r !! "name" = Some n →
     (tag r = "enum" → et !! n = None → lookup_entry et ct r = None)
     ∧ (tag r = "command" → ct !! Some n = None → lookup_entry et ct r = None))
  ∧ (∃ w', Extension__init__ i element w = (Ok ext, w'))
  ∧ (∀ c, c ∈ Extension_functions ext →
       ∃ r n, r ∈ chained "require" element ∧ attrib r !! "name" = Some n
              ∧ ct !! Some n = Some c)
  ∧ (∀ e, e ∈ Extension_enums ext →
       ∃ r n, r ∈ chained "require" element ∧ attrib r !! "name" = Some n
              ∧ et !! n = Some e)
  ∧ (∀ num a, version element = Ok num → attrib element !! "api" = Some a →
       Forall known_tag (chained "remove" element) →
       ∃ w', Feature__init__ i element w =
               (Ok {| base := ext; number := num; api := a |}, w')
             ∧ _remove (spec w') =
                 foldl (λ s o, set_add o s) (_remove (spec w))
                       (omap (lookup_entry et ct) (chained "remove" element))).
Proof.
  intros He Hc Hn Hreq ext. split_and!.
  - intros r n Hr. unfold lookup_entry. rewrite Hr. simpl. split; intros Ht Hnone.
    + rewrite Ht. simpl. by rewrite Hnone.
    + rewrite Ht. simpl. by rewrite Hnone.
  - eexists. by apply (Extension__init___run w et w1 ct w2).
  - intros c (o & Ho & Hc')%list_elem_of_omap. destruct o as [|c']; [done|].
    injection Hc' as ->. simpl in Ho.
    apply list_elem_of_omap in Ho as (r & Hr & Hl).
    apply lookup_entry_Some in Hl as (n & Hname & [(_ & e & _ & [=])|(_ & c' & Hc' & [= <-])]).
    eauto.
  - intros e (o & Ho & He')%list_elem_of_omap. destruct o as [e'|]; [|done].
    injection He' as ->. simpl in Ho.
    apply list_elem_of_omap in Ho as (r & Hr & Hl).
    apply lookup_entry_Some in Hl as (n & Hname & [(_ & e' & He' & [= <-])|(_ & c' & _ & [=])]).
    eauto.
  - intros num a Hnum Hapi Hrem.
    destruct (derive_tables _ _ _ _ _ He Hc) as [C S].
    assert (Hr2 : _remove (spec w2) = _remove (spec w)).
    { by apply (f_equal _remove (ts_rest _ _ S)). }
    assert (Hloop : ∃ w',
      for_ remove_body (chained "remove" element)
        (if forallb is_type (chained "require" element) then w else w2) = (Ok (), w')
      ∧ _remove (spec w') =
          foldl (λ s o, set_add o s) (_remove (spec w))
                (omap (lookup_entry et ct) (chained "remove" element))).
    { destruct (forallb is_type (chained "require" element)).
      - rewrite (remove_loop w et w1 ct w2 _ He Hc Hrem).
        eexists; split; [done|].
        destruct (forallb is_type (chained "remove" element)) eqn:Hall.
        + by rewrite omap_all_type.
        + by rewrite remove_add_all, Hr2.
      - rewrite (remove_loop_cached w2 et ct _ Hrem C).
        eexists; split; [done|]. by rewrite remove_add_all, Hr2. }
    destruct Hloop as (w' & Hloop & Hset). exists w'. split; [|done].
    unfold Feature__init__.
    rewrite (bind_run _ _ _ _ _ (Extension__init___run w et w1 ct w2 i element name
                                   He Hc Hn Hreq)).
    rewrite (bind_run _ _ _ _ _ Hloop).
    unfold mbind, Py_bind, lift, getitem. by rewrite Hnum, Hapi.
Qed.

(** ** The [extensions] collection *)

Lemma Extension_new_Ok element w e w' :
  Extension_new element w = (Ok e, w') →
  tables_step w w' ∧ Extension_id e = fresh w ∧ (fresh w < fresh w')%positive
  ∧ attrib element !! "name" = Some (Extension_name e)
  ∧ ∀ w'', grows w' w'' →
      require e = omap (resolve (spec w'')) (chained "require" element).
Proof.
  unfold Extension_new. intros H.
  apply bind_Ok in H as (i & w1 & Hi & H). apply new_Ok in Hi as [-> ->].
  apply Extension__init___Ok in H as (S & Hid & Hname & Hreq).
  pose proof (ts_fresh _ _ S) as Hf. simpl in Hf.
  split_and!; try done; [|lia].
  destruct S as [Hr He Hc _]. split; auto. lia.
Qed.

Lemma ext_at_store d a k e a' k' :
  ext_at (<[a := <[k := e]> (default ∅ (d !! a))]> d) a' k' =
    if decide (a' = a ∧ k' = k) then Some e else ext_at d a' k'.
Proof.
  unfold ext_at. destruct (decide (a' = a)) as [->|Ha].
  - rewrite lookup_insert_eq. simpl. destruct (decide (k' = k)) as [->|Hk].
    + rewrite lookup_insert_eq. by rewrite decide_True.
    + rewrite lookup_insert_ne by done. rewrite decide_False by naive_solver.
      by destruct (d !! a).
  - rewrite lookup_insert_ne by done. by rewrite decide_False by naive_solver.
Qed.

Lemma extensions_store a k e s :
  _extensions (extensions_setitem a k e (extensions_touch a s)) =
    Some (<[a := <[k := e]> (default ∅ (default ∅ (_extensions s) !! a))]>
            (default ∅ (_extensions s))).
Proof.
  unfold extensions_setitem, extensions_touch, touch. simpl. f_equal.
  destruct (default ∅ (_extensions s) !! a) as [m|] eqn:E; simpl.
  - by rewrite E.
  - rewrite lookup_insert_eq. simpl. by rewrite insert_insert_eq.
Qed.

Lemma registry_ok_iff P Q w :
  (∀ el a, P el a ↔ Q el a) → registry_ok P w → registry_ok Q w.
Proof.
  intros HPQ (d & Hd & HA & HB & HC). exists d. split_and!; [done| |done|].
  - intros a k e He. destruct (HA a k e He) as (? & ? & el & HP & ? & ?).
    split_and!; [done..|]. exists el. split_and!; [by apply HPQ|done..].
  - intros el a k HQ. apply HC. by apply HPQ.
Qed.

Lemma registry_step P x a w e w1 k :
  registry_ok P w →
  Extension_new x w = (Ok e, w1) →
  attrib x !! "name" = Some k →
  registry_ok (λ el a', P el a' ∨ (el = x ∧ a' = a))
    {| fresh := fresh w1;
       spec := extensions_setitem a k e (extensions_touch a (spec w1)) |}.
Proof.
  intros (d & Hd & HA & HB & HC) Hnew Hk.
  apply Extension_new_Ok in Hnew as (S & Hid & Hf & Hname & Hreq).
  assert (Hd1 : _extensions (spec w1) = Some d).
  { rewrite <- Hd. apply (f_equal _extensions (ts_rest _ _ S)). }
  assert (G : grows w w1) by by apply tables_step_grows.
  assert (G' : ∀ w'', grows {| fresh := fresh w1;
                 spec := extensions_setitem a k e (extensions_touch a (spec w1)) |} w''
               → grows w1 w'').
  { intros w'' G'. etrans; [|exact G']. split; simpl; auto. lia. }
  rewrite Hname in Hk. injection Hk as <-.
  eexists. split; [apply extensions_store|]. rewrite Hd1. simpl.
  split_and!.
  - intros a' k' e'. rewrite ext_at_store. case_decide as Hc.
    + destruct Hc as [-> ->]. intros [= <-]. split_and!; [done|lia|].
      exists x. split_and!; [by right|done|]. intros w'' G''. apply Hreq. auto.
    + intros He'. destruct (HA a' k' e' He') as (? & ? & el & HP & ? & Hr).
      split_and!; [done|lia|]. exists el. split_and!; [by left|done|].
      intros w'' G''. apply Hr. etrans; [exact G|]. auto.
  - intros a1 k1 e1 a2 k2 e2. rewrite !ext_at_store.
    case_decide as Hc1; case_decide as Hc2.
    + naive_solver.
    + intros [= <-] H2 Heq. destruct (HA _ _ _ H2) as (_ & ? & _). lia.
    + intros H1 [= <-] Heq. destruct (HA _ _ _ H1) as (_ & ? & _). lia.
    + eauto.
  - intros el a' k' [HP|[-> ->]] Hk'; rewrite ext_at_store; case_decide; eauto.
    rewrite Hname in Hk'. injection Hk' as <-. naive_solver.
Qed.

(** A successful derivation of [extensions]. *)
Lemma extensions_Ok w d w' container :
  _extensions (spec w) = None →
  extensions w = (Ok d, w') →
  Element_find "extensions" (root (spec w)) = Some container →
  grows w w' ∧ _extensions (spec w') = Some d ∧
  registry_ok (λ el a, el ∈ children container
                       ∧ ∃ sup, attrib el !! "supported" = Some sup
                                ∧ a ∈ PyStr.split_char "|" sup) w'.
Proof.
  intros Hnone H Hfind. unfold extensions in H.
  apply bind_Ok in H as (s & w1 & Hs & H). apply self_Ok in Hs as [-> ->].
  rewrite Hnone, Hfind in H.
  apply bind_Ok in H as ([] & w1 & Hu & H). apply update_Ok in Hu as ->.
  apply bind_Ok in H as (els & w1 & Hels & H). apply lift_Ok in Hels as [Hels ->].
  simpl in Hels. injection Hels as <-.
  apply bind_Ok in H as ([] & w2 & Hloop & H).
  apply bind_Ok in H as (s & w3 & Hs & H). apply self_Ok in Hs as [-> ->].
  apply ret_Ok in H as [-> ->].
  set (P := λ (pre : list Element) (el : Element) (a : string),
         el ∈ pre ∧ ∃ sup, attrib el !! "supported" = Some sup
                           ∧ a ∈ PyStr.split_char "|" sup).
  eapply (for_Ok _ (λ pre w2, grows w w2 ∧ registry_ok (P pre) w2))
    in Hloop as (G & Hreg).
  - split; [done|]. destruct Hreg as (d & Hd & Hreg). rewrite Hd. simpl.
    split; [done|]. by exists d.
  - split.
    + split; simpl; auto. lia.
    + exists ∅. split; [done|]. split_and!.
      * intros a k e. unfold ext_at. by rewrite lookup_empty.
      * intros a1 k1 e1 a2 k2 e2. unfold ext_at. by rewrite lookup_empty.
      * intros el a k [Hel _]. by apply elem_of_nil in Hel.
  - clear. intros pre x w1 w2 [G Hreg] H. cbv beta in H.
    apply bind_Ok in H as (sup & w3 & Hsup & H). apply lift_Ok in Hsup as [Hsup ->].
    unfold getitem in Hsup.
    destruct (attrib x !! "supported") as [sup'|] eqn:Esup; [|done].
    injection Hsup as ->.
    set (Q := λ (apis : list string) (el : Element) (a : string),
           P pre el a ∨ (el = x ∧ a ∈ apis)).
    eapply (for_Ok _ (λ apis w2, grows w w2 ∧ registry_ok (Q apis) w2))
      in H as (G' & Hreg').
    + split; [done|]. eapply registry_ok_iff; [|exact Hreg'].
      intros el a. unfold Q, P. rewrite elem_of_app, list_elem_of_singleton.
      split.
      * intros [[Hel Hs]|[-> Ha]]; [tauto|]. split; [by right|eauto].
      * intros [[Hel| ->] (sup' & Hs & Ha)]; [left; eauto|].
        right. split; [done|]. rewrite Esup in Hs. by injection Hs as ->.
    + split; [done|]. eapply registry_ok_iff; [|exact Hreg].
      intros el a. unfold Q. rewrite elem_of_nil. tauto.
    + clear -Esup. intros apis a w1 w2 [G Hreg] H. cbv beta in H.
      apply bind_Ok in H as (e & w3 & Hnew & H).
      apply bind_Ok in H as ([] & w4 & Hu & H). apply update_Ok in Hu as ->.
      apply bind_Ok in H as (k & w4 & Hk & H). apply lift_Ok in Hk as [Hk ->].
      apply update_Ok in H as ->. simpl.
      unfold getitem in Hk. destruct (attrib x !! "name") as [k'|] eqn:Ek; [|done].
      injection Hk as ->.
      split.
      * etrans; [exact G|]. etrans.
        { apply tables_step_grows. by apply Extension_new_Ok in Hnew as [? _]. }
        split; simpl; auto. lia.
      * eapply registry_ok_iff; [|exact (registry_step _ x a w1 e w3 k Hreg Hnew Ek)].
        intros el a'. unfold Q. rewrite elem_of_app, list_elem_of_singleton.
        cbv beta. tauto.
Qed.

(** C6, as amended.  An extension node is registered under each variant its
    [supported] attribute lists, keyed by its name, with an extension of
    that name; the entries under two different variants are two different
    objects, one constructed per variant.  When no other node has the same
    name, each of them holds the require list of this node. *)
Theorem extensions_one_instance_per_variant w d w' container element supported name :
  _extensions (spec w) = None →
  extensions w = (Ok d, w') →
  Element_find "extensions" (root (spec w)) = Some container →
  element ∈ children container →
  attrib element !! "supported" = Some supported →
  attrib element !! "name" = Some name →
  (∀ api, api ∈ PyStr.split_char "|" supported →
     ∃ e, ext_at d api name = Some e ∧ Extension_name e = name)
  ∧ (∀ api1 api2 e1 e2, api1 ≠ api2 →
       ext_at d api1 name = Some e1 → ext_at d api2 name = Some e2 →
       Extension_id e1 ≠ Extension_id e2)
  ∧ ((∀ other, other ∈ children container →
        attrib other !! "name" = Some name → other = element) →
     ∀ api e, ext_at d api name = Some e →
       require e = omap (resolve (spec w')) (chained "require" element)).
Proof.
  intros Hnone Hrun Hfind Hel Hsup Hname.
  destruct (extensions_Ok w d w' container Hnone Hrun Hfind)
    as (G & Hd & d' & Hd' & HA & HB & HC).
  rewrite Hd in Hd'. injection Hd' as <-.
  split_and!.
  - intros a Ha. destruct (HC element a name) as [e He]; [by eauto|done|].
    exists e. split; [done|]. by destruct (HA _ _ _ He).
  - intros a1 a2 e1 e2 Hne H1 H2 Heq.
    destruct (HB _ _ _ _ _ _ H1 H2 Heq) as [? _]. done.
  - intros Huniq a e He.
    destruct (HA _ _ _ He) as (_ & _ & el & [Hin _] & Hn & Hreq).
    rewrite <- (Huniq el Hin Hn). by apply Hreq.
Qed.

(** C7, as amended.  The hash of an [Enum] or a [Command] is the hash of
    its name.  Equality is identity.  For two objects held in one derived
    [enums] table (or [commands] table), which has one object per name,
    they are equal exactly when their names are. *)
Theorem equality_is_identity_hash_by_name (hash : option string → Z) :
  (∀ e, Enum__hash__ hash e = hash (Some (Enum_name e)))
  ∧ (∀ c, Command__hash__ hash c = hash (Proto_name (proto c)))
  ∧ (∀ a b : Enum, Enum_eq a b = true ↔ Enum_id a = Enum_id b)
  ∧ (∀ a b : Command, Command_eq a b = true ↔ Command_id a = Command_id b)
  ∧ (∀ w et w', _enums (spec w) = None → enums w = (Ok et, w') →
       ∀ k1 k2 e1 e2, et !! k1 = Some e1 → et !! k2 = Some e2 →
         (Enum_eq e1 e2 = true ↔ Enum_name e1 = Enum_name e2))
  ∧ (∀ w ct w', _commands (spec w) = None → commands w = (Ok ct, w') →
       ∀ k1 k2 c1 c2, ct !! k1 = Some c1 → ct !! k2 = Some c2 →
         (Command_eq c1 c2 = true ↔ Proto_name (proto c1) = Proto_name (proto c2))).
Proof.
  split_and!; try done.
  - intros a b. apply bool_decide_eq_true.
  - intros a b. apply bool_decide_eq_true.
  - intros w et w' Hnone Hrun k1 k2 e1 e2 H1 H2.
    destruct (enums_Ok_table w et w' Hnone Hrun) as [Hk Hi].
    destruct (Hk _ _ H1) as [-> _], (Hk _ _ H2) as [-> _].
    unfold Enum_eq. rewrite bool_decide_eq_true. split.
    + eauto.
    + intros Heq. rewrite Heq in H1. congruence.
  - intros w ct w' Hnone Hrun k1 k2 c1 c2 H1 H2.
    destruct (commands_Ok_pairs w ct w' Hnone Hrun) as (l & -> & Hk & Hi).
    apply dict_of_lookup in H1 as H1', H2 as H2'.
    destruct (Hk _ _ H1') as [-> _], (Hk _ _ H2') as [-> _].
    unfold Command_eq. rewrite bool_decide_eq_true. split.
    + eauto.
    + intros Heq. rewrite Heq in H1. congruence.
Qed.

(** C2.  [removed] is empty under the profile ["compatability"] and is
    the removal set accumulated so far under ["core"].  It is read when
    asked: after a feature has been constructed, a query under ["core"]
    contains what the earlier query had and what the remove blocks of that
    feature name; under ["compatability"] it is still empty. *)
Theorem removed_follows_profile_at_query_time :
  (∀ s, _profile s = "compatability" → removed s = ∅)
  ∧ (∀ s, _profile s = "core" → removed s = _remove s)
  ∧ (∀ w element f w',
       Feature_new element w = (Ok f, w') →
       (_profile (spec w) = "compatability" → removed (spec w') = ∅)
       ∧ (_profile (spec w) = "core" →
            removed (spec w') = _remove (spec w')
            ∧ removed (spec w) ⊆ removed (spec w')
            ∧ ∀ r o, r ∈ chained "remove" element →
                resolve (spec w') r = Some o →
                set_in o (removed (spec w')) = true)).
Proof.
  split_and!.
  - intros s Hp. unfold removed. by rewrite Hp.
  - intros s Hp. unfold removed. by rewrite Hp.
  - intros w element f w' Hnew.
    apply Feature_new_Ok in Hnew as (G & _ & _ & _ & _ & _ & _ & Hrem).
    pose proof (g_profile _ _ G) as Hp'. split; intros Hp; rewrite Hp in Hp'.
    + unfold removed. by rewrite Hp'.
    + unfold removed. rewrite Hp, Hp'. simpl. split_and!; [done|apply G|].
      intros r o Hr Hl. by apply (Hrem r o w').
Qed.

(** C3.  The profile setter raises [ValueError] on any string other than
    ["core"] and ["compatability"] and leaves the state as it was; on
    either of the two it returns and the stored profile is the value. *)
Theorem profile_setter_validates value w :
  (value ≠ "core" → value ≠ "compatability" →
     profile_setter value w = (Raise ValueError, w))
  ∧ (value = "core" ∨ value = "compatability" →
       profile_setter value w =
         (Ok (), {| fresh := fresh w; spec := set_profile value (spec w) |})
       ∧ _profile (set_profile value (spec w)) = value).
Proof.
  unfold profile_setter. split.
  - intros H1 H2. rewrite bool_decide_eq_false_2; [done|].
    rewrite !elem_of_cons, elem_of_nil. tauto.
  - intros H. rewrite bool_decide_eq_true_2; [done|].
    rewrite !elem_of_cons. tauto.
Qed.

(** C5.  A type occurrence whose text is [const void] and two stars, with
    no [ptype] child, parses to base type [void], pointer depth 2, const;
    this descriptor renders in the declarative form with [const] around
    the innermost pointee and one star after it, and in the call form as
    [const void] and two stars: the two strings of the statement. *)
Theorem const_void_pointer_pointer element :
  join (Element_itertext element) = "const void **" →
  Element_find "ptype" element = None →
  let t := {| OGLType_type := Some "void"; is_pointer := 2; is_const := true |} in
  OGLType__init__ element = Ok t
  ∧ to_d t = Ok "const(void*)*"
  ∧ to_c t = Ok "const void**".
Proof.
  intros Htext Hfind. unfold OGLType__init__. rewrite Htext, Hfind. done.
Qed.

(** C8.  What the code does instead: [fromstring] reads the name [raw],
    which is not bound in its body, and raises [NameError] on every
    input, before the parser is called. *)
Theorem fromstring_raises_NameError (etree_fromstring : string → result Element)
    (string : string) :
  fromstring etree_fromstring string = Raise NameError.
Proof. done. Qed.

(** C9.  What the code does instead: on the text [short *p] of a
    parameter without [ptype], [strip('const')] removes the leading [s]
    and the base type name is [hort], where the first token after a
    leading [const] keyword is [short]. *)
Theorem base_type_loses_leading_letters :
  let element := node "param" [] (Some "short *") [node "name" [] (Some "p") []] in
  Element_find "ptype" element = None
  ∧ OGLType__init__ element =
      Ok {| OGLType_type := Some "hort"; is_pointer := 1; is_const := false |}
  ∧ spec_base_type (join (Element_itertext element)) = Ok "short".
Proof. done. Qed.

(** C10.  In a document without a [groups], [commands] or [extensions]
    container, the first access to the collection raises ([TypeError],
    from iterating [None]); without [enums], [feature] or [types] nodes,
    [enums], [features] and [types] return empty collections. *)
Theorem missing_containers w :
  (_groups (spec w) = None → Element_find "groups" (root (spec w)) = None →
     groups w = (Raise TypeError, w))
  ∧ (_commands (spec w) = None → Element_find "commands" (root (spec w)) = None →
       commands w = (Raise TypeError, w))
  ∧ (_extensions (spec w) = None →
     Element_find "extensions" (root (spec w)) = None →
       extensions w =
         (Raise TypeError,
          {| fresh := fresh w; spec := set_extensions (Some ∅) (spec w) |}))
  ∧ (_enums (spec w) = None → Element_iter "enums" (root (spec w)) = [] →
       enums w = (Ok ∅, {| fresh := fresh w; spec := set_enums (Some ∅) (spec w) |}))
  ∧ (_features (spec w) = None → Element_iter "feature" (root (spec w)) = [] →
       features w =
         (Ok ∅, {| fresh := fresh w; spec := set_features (Some ∅) (spec w) |}))
  ∧ (_types (spec w) = None → Element_iter "types" (root (spec w)) = [] →
       types w =
         (Ok [], {| fresh := fresh w; spec := set_types (Some []) (spec w) |})).
Proof.
  split_and!; intros Hnone Hdoc.
  - unfold groups, mbind, Py_bind, self, lift. by rewrite Hnone, Hdoc.
  - unfold commands, mbind, Py_bind, self, lift. by rewrite Hnone, Hdoc.
  - unfold extensions, mbind, Py_bind, self, lift, update. by rewrite Hnone, Hdoc.
  - unfold enums, mbind, Py_bind, self, update. by rewrite Hnone, Hdoc.
  - unfold features, mbind, Py_bind, self, update. by rewrite Hnone, Hdoc.
  - unfold types, mbind, Py_bind, self, update. by rewrite Hnone, Hdoc.
Qed.

Lemma missing_containers_witness :
  groups bare_w0 = (Raise TypeError, bare_w0)
  ∧ commands bare_w0 = (Raise TypeError, bare_w0)
  ∧ (extensions bare_w0).1 = Raise TypeError
  ∧ (enums bare_w0).1 = Ok ∅
  ∧ (features bare_w0).1 = Ok ∅
  ∧ (types bare_w0).1 = Ok [].
Proof.
  destruct (missing_containers bare_w0) as (Hg & Hc & Hx & He & Hf & Ht).
  split_and!.
  - apply Hg; reflexivity.
  - apply Hc; reflexivity.
  - rewrite Hx; reflexivity.
  - rewrite He; reflexivity.
  - rewrite Hf; reflexivity.
  - rewrite Ht; reflexivity.
Defined.

Lemma removal_set_is_global_witness :
  let w2 := (profile_setter "core" (features demo_w0).2).2 in
  set_in (OCommand demo_glFoo) (removed (spec w2)) = true
  ∧ demo_glFoo ∉ Feature_functions demo_version_1_0 (spec w2).
Proof.
  apply (removal_set_is_global demo_w0
           (value_of ∅ (features demo_w0).1) (features demo_w0).2
           (profile_setter "core" (features demo_w0).2).2
           eq_refl
           ltac:(vm_compute; reflexivity) ltac:(vm_compute; reflexivity)
           demo_feature_2_0 (ref "command" "glFoo") (OCommand demo_glFoo)
           "gl" [([1; 0], demo_version_1_0); ([2; 0], demo_version_2_0)]
           [1; 0] demo_version_1_0).
  - vm_compute. repeat constructor.
  - vm_compute. repeat constructor.
  - vm_compute. reflexivity.
  - vm_compute. reflexivity.
  - reflexivity.
Defined.

Lemma removed_follows_profile_at_query_time_witness :
  let w := (profile_setter "core" demo_w0).2 in
  let w' := (Feature_new demo_feature_2_0 w).2 in
  removed (spec w) = ∅
  ∧ removed (spec w') = _remove (spec w')
  ∧ set_in (OCommand demo_glFoo) (removed (spec w')) = true.
Proof.
  intros w w'.
  destruct removed_follows_profile_at_query_time as (_ & _ & H).
  destruct (H w demo_feature_2_0
              {| base := {| Extension_id := 1; Extension_name := "GL_VERSION_2_0";
                            require := [] |};
                 number := [2; 0]; api := "gl" |} w'
              ltac:(vm_compute; reflexivity)) as [_ Hcore].
  destruct (Hcore eq_refl) as (Heq & _ & Hin).
  split_and!; [reflexivity|exact Heq|].
  apply (Hin (ref "command" "glFoo")).
  - vm_compute. repeat constructor.
  - vm_compute. reflexivity.
Defined.

Lemma profile_setter_validates_witness :
  profile_setter "compatibility" demo_w0 = (Raise ValueError, demo_w0)
  ∧ (profile_setter "core" demo_w0).1 = Ok ()
  ∧ _profile (spec (profile_setter "core" demo_w0).2) = "core".
Proof.
  split_and!.
  - apply (profile_setter_validates "compatibility" demo_w0); by vm_compute.
  - destruct (proj2 (profile_setter_validates "core" demo_w0) (or_introl eq_refl))
      as [-> _]. reflexivity.
  - destruct (proj2 (profile_setter_validates "core" demo_w0) (or_introl eq_refl))
      as [-> H]. exact H.
Defined.

Lemma unresolved_entries_are_skipped_witness :
  (∃ w', Extension__init__ 1 demo_extension demo_w1 =
           (Ok {| Extension_id := 1; Extension_name := "GL_EXT_demo";
                  require := [OEnum demo_GL_A; OCommand demo_glBar] |}, w'))
  ∧ lookup_entry (value_of ∅ (enums demo_w1).1)
                 (value_of ∅ (commands (enums demo_w1).2).1)
                 (ref "command" "glMissing") = None.
Proof.
  destruct (unresolved_entries_are_skipped demo_w1
              (value_of ∅ (enums demo_w1).1) (enums demo_w1).2
              (value_of ∅ (commands (enums demo_w1).2).1)
              (commands (enums demo_w1).2).2
              1%positive demo_extension "GL_EXT_demo"
              ltac:(vm_compute; reflexivity) ltac:(vm_compute; reflexivity)
              ltac:(vm_compute; reflexivity)
              ltac:(vm_compute; repeat constructor))
    as (Hskip & Hext & _).
  split; [exact Hext|].
  apply (Hskip (ref "command" "glMissing") "glMissing");
    vm_compute; reflexivity.
Defined.

Lemma const_void_pointer_pointer_witness :
  let element := node "param" [] (Some "const void **") [] in
  OGLType__init__ element =
    Ok {| OGLType_type := Some "void"; is_pointer := 2; is_const := true |}
  ∧ (OGLType__init__ element ≫= to_d) = Ok "const(void*)*"
  ∧ (OGLType__init__ element ≫= to_c) = Ok "const void**".
Proof.
  intros element.
  destruct (const_void_pointer_pointer element eq_refl eq_refl) as (Hi & Hd & Hc).
  rewrite Hi. split_and!; [reflexivity|exact Hd|exact Hc].
Defined.

Lemma extensions_one_instance_per_variant_witness :
  let d := value_of ∅ (extensions demo_w0).1 in
  (∀ api, api ∈ ["gl"; "gles2"] →
     ∃ e, ext_at d api "GL_EXT_demo" = Some e ∧ Extension_name e = "GL_EXT_demo")
  ∧ (∀ e1 e2, ext_at d "gl" "GL_EXT_demo" = Some e1 →
       ext_at d "gles2" "GL_EXT_demo" = Some e2 →
       Extension_id e1 ≠ Extension_id e2).
Proof.
  intros d.
  destruct (extensions_one_instance_per_variant demo_w0 d (extensions demo_w0).2
              demo_extensions demo_extension "gl|gles2" "GL_EXT_demo"
              eq_refl ltac:(vm_compute; reflexivity) ltac:(vm_compute; reflexivity)
              ltac:(vm_compute; repeat constructor)
              ltac:(vm_compute; reflexivity) ltac:(vm_compute; reflexivity))
    as (Hreg & Hdiff & _).
  split; [exact Hreg|].
  intros e1 e2. apply Hdiff. discriminate.
Defined.

(** The node of [demo_registry] that lists two variants is registered as
    two objects, of identities 1 and 5, not as one. *)
Lemma extensions_shared_instance_counterexample :
  let d := value_of ∅ (extensions demo_w0).1 in
  Extension_id <$> ext_at d "gl" "GL_EXT_demo" = Some 1%positive
  ∧ Extension_id <$> ext_at d "gles2" "GL_EXT_demo" = Some 5%positive
  ∧ ext_at d "gl" "GL_EXT_demo" ≠ ext_at d "gles2" "GL_EXT_demo".
Proof.
  split_and!; [vm_compute; reflexivity..|].
  intros H. apply (f_equal (fmap Extension_id)) in H. vm_compute in H. discriminate.
Qed.

(** The views of version 1.0 of [demo_registry] once version 2.0 has removed
    [glFoo], under each profile. *)
Example demo_views :
  let w1 := (features demo_w0).2 in
  let w2 := (profile_setter "core" w1).2 in
  Feature_functions demo_version_1_0 (spec w1) = [demo_glFoo; demo_glBar]
  ∧ Feature_functions demo_version_1_0 (spec w2) = [demo_glBar]
  ∧ Feature_enums demo_version_1_0 (spec w2) = [demo_GL_A].
Proof. split_and!; vm_compute; reflexivity. Qed.

Lemma equality_is_identity_hash_by_name_witness :
  let foo := {| Command_id := 1;
                proto := {| Proto_name := Some "glFoo"; ret := demo_void |};
                params := [] |} in
  let bar := {| Command_id := 2;
                proto := {| Proto_name := Some "glBar"; ret := demo_void |};
                params := [] |} in
  value_of ∅ (commands demo_w0).1 !! Some "glFoo" = Some foo
  ∧ value_of ∅ (commands demo_w0).1 !! Some "glBar" = Some bar
  ∧ (Command_eq foo bar = true ↔ Proto_name (proto foo) = Proto_name (proto bar))
  ∧ (Command_eq foo foo = true ↔ Proto_name (proto foo) = Proto_name (proto foo)).
Proof.
  destruct (equality_is_identity_hash_by_name (λ _, 0)) as (_ & _ & _ & _ & _ & H).
  pose proof (H demo_w0 (value_of ∅ (commands demo_w0).1) (commands demo_w0).2
                eq_refl ltac:(vm_compute; reflexivity)) as Htable.
  split_and!.
  - vm_compute. reflexivity.
  - vm_compute. reflexivity.
  - apply (Htable (Some "glFoo") (Some "glBar")); vm_compute; reflexivity.
  - apply (Htable (Some "glFoo") (Some "glFoo")); vm_compute; reflexivity.
Defined.

(** Two objects built with the same name are not equal. *)
Lemma equal_names_unequal_objects_counterexample :
  (a ← Enum_new "GL_A" "0x1" "GL" None None None "";
   b ← Enum_new "GL_A" "0x1" "GL" None None None "";
   mret (Enum_name a, Enum_name b, Enum_eq a b)) demo_w0
  = (Ok ("GL_A", "GL_A", false), {| fresh := 3; spec := spec demo_w0 |}).
Proof. reflexivity. Qed.

(** * Further properties of the module *)

(** ** Conditions kept whether a computation returns or raises *)

Lemma stable_ret {A} I (a : A) : stable I (mret a).
Proof. by intros w. Qed.

Lemma stable_lift {A} I (r : result A) : stable I (lift r).
Proof. by intros w. Qed.

Lemma stable_raise {A} I e : stable I (raise e : Py A).
Proof. by intros w. Qed.

Lemma stable_self I : stable I self.
Proof. by intros w. Qed.

Lemma stable_bind {A B} I (c : Py A) (f : A → Py B) :
  stable I c → (∀ a, stable I (f a)) → stable I (c ≫= f).
Proof.
  intros Hc Hf w HI. specialize (Hc w HI). unfold mbind, Py_bind.
  destruct (c w) as [[a|e] w1]; simpl in *; [by apply Hf|done].
Qed.

Lemma stable_update I f :
  (∀ w, I w → I {| fresh := fresh w; spec := f (spec w) |}) → stable I (update f).
Proof. intros H w HI. by apply H. Qed.

Lemma stable_new I :
  (∀ w, I w → I {| fresh := Pos.succ (fresh w); spec := spec w |}) → stable I new.
Proof. intros H w HI. by apply H. Qed.

Lemma stable_for {A} I (body : A → Py unit) l :
  (∀ x, stable I (body x)) → stable I (for_ body l).
Proof.
  intros Hb. induction l as [|x l IH]; simpl; [apply stable_ret|].
  apply stable_bind; [apply Hb|by intros _].
Qed.

Lemma stable_for_acc {A S} I (body : S → A → Py S) acc l :
  (∀ a x, stable I (body a x)) → stable I (for_acc body acc l).
Proof.
  intros Hb. revert acc. induction l as [|x l IH]; intros acc; simpl;
    [apply stable_ret|].
  apply stable_bind; [apply Hb|by intros a].
Qed.

Lemma stable_mapM {A B} I (f : A → Py B) l :
  (∀ x, stable I (f x)) → stable I (mapM f l).
Proof.
  intros Hf. induction l as [|x l IH]; simpl; [apply stable_ret|].
  apply stable_bind; [apply Hf|intros b].
  apply stable_bind; [apply IH|intros k]. apply stable_ret.
Qed.

Lemma stable_except {A} I (body handler : Py A) :
  stable I body → stable I handler → stable I (except_KeyError body handler).
Proof.
  intros Hb Hh w HI. specialize (Hb w HI). unfold except_KeyError.
  destruct (body w) as [[a|[]] w1]; simpl in *; try done. by apply Hh.
Qed.

Lemma blind_to_tables_new I w :
  blind_to_tables I → I w → I {| fresh := Pos.succ (fresh w); spec := spec w |}.
Proof.
  intros HI Hw. specialize (HI w (Pos.succ (fresh w)) (_enums (spec w))
                              (_commands (spec w)) Hw).
  by destruct w as [n []].
Qed.

Lemma blind_to_tables_enums I w v :
  blind_to_tables I → I w → I {| fresh := fresh w; spec := set_enums v (spec w) |}.
Proof.
  intros HI Hw. specialize (HI w (fresh w) v (_commands (spec w)) Hw).
  by destruct w as [n []].
Qed.

Lemma blind_to_tables_commands I w v :
  blind_to_tables I → I w → I {| fresh := fresh w; spec := set_commands v (spec w) |}.
Proof.
  intros HI Hw. specialize (HI w (fresh w) (_enums (spec w)) v Hw).
  by destruct w as [n []].
Qed.

Lemma stable_enums I : blind_to_tables I → stable I enums.
Proof.
  intros HI. unfold enums. apply stable_bind; [apply stable_self|intros s].
  destruct (_enums s); [apply stable_ret|].
  apply stable_bind.
  { apply stable_update. intros w. by apply blind_to_tables_enums. }
  intros _. apply stable_bind; [|intros _; apply stable_bind;
                                  [apply stable_self|intros; apply stable_ret]].
  apply stable_for. intros element.
  apply stable_bind; [apply stable_lift|intros ns].
  apply stable_for. intros enum.
  destruct (bool_decide (tag enum = "unused")); [apply stable_ret|].
  apply stable_bind.
  { destruct (bool_decide (tag enum = "enum")); [apply stable_ret|apply stable_raise]. }
  intros _. apply stable_bind; [apply stable_lift|intros name].
  apply stable_bind; [apply stable_lift|intros value].
  apply stable_bind.
  { unfold Enum_new. apply stable_bind; [|intros; apply stable_ret].
    apply stable_new. intros w. by apply blind_to_tables_new. }
  intros e. apply stable_update. intros w. by apply blind_to_tables_enums.
Qed.

Lemma stable_commands I : blind_to_tables I → stable I commands.
Proof.
  intros HI. unfold commands. apply stable_bind; [apply stable_self|intros s].
  destruct (_commands s); [apply stable_ret|].
  apply stable_bind; [apply stable_lift|intros elements].
  apply stable_bind.
  { apply stable_mapM. intros element.
    apply stable_bind; [apply stable_lift|intros k].
    apply stable_bind; [|intros; apply stable_ret].
    unfold Command_new. apply stable_bind; [|intros; apply stable_lift].
    apply stable_new. intros w. by apply blind_to_tables_new. }
  intros pairs. apply stable_bind; [|intros; apply stable_ret].
  apply stable_update. intros w. by apply blind_to_tables_commands.
Qed.

Lemma stable_table I tg : blind_to_tables I → stable I (table tg).
Proof.
  intros HI. unfold table.
  apply stable_bind; [by apply stable_enums|intros e].
  apply stable_bind; [by apply stable_commands|intros c].
  repeat case_bool_decide; first [apply stable_ret|apply stable_raise].
Qed.

Lemma stable_Extension__init__ I i element :
  blind_to_tables I → stable I (Extension__init__ i element).
Proof.
  intros HI. unfold Extension__init__.
  apply stable_bind; [apply stable_lift|intros name].
  apply stable_bind; [|intros; apply stable_ret].
  apply stable_for_acc. intros acc r. unfold require_body.
  case_bool_decide; [apply stable_ret|].
  apply stable_bind; [by apply stable_table|intros data].
  apply stable_except; [|apply stable_ret].
  apply stable_bind; [apply stable_lift|intros; apply stable_ret].
Qed.

Lemma stable_Extension_new I element :
  blind_to_tables I → stable I (Extension_new element).
Proof.
  intros HI. unfold Extension_new. apply stable_bind.
  - apply stable_new. intros w. by apply blind_to_tables_new.
  - intros i. by apply stable_Extension__init__.
Qed.

Lemma stable_Feature_new I element :
  blind_to_tables I →
  (∀ w o, I w → I {| fresh := fresh w; spec := remove_add o (spec w) |}) →
  stable I (Feature_new element).
Proof.
  intros HI Hrem. unfold Feature_new. apply stable_bind.
  { apply stable_new. intros w. by apply blind_to_tables_new. }
  intros i. unfold Feature__init__.
  apply stable_bind; [by apply stable_Extension__init__|intros ext].
  apply stable_bind.
  { apply stable_for. intros r. unfold remove_body.
    case_bool_decide; [apply stable_ret|].
    apply stable_bind; [by apply stable_table|intros data].
    apply stable_except; [|apply stable_ret].
    apply stable_bind; [apply stable_lift|intros o].
    apply stable_update. intros w. apply Hrem. }
  intros _. apply stable_bind; [apply stable_lift|intros num].
  apply stable_bind; [apply stable_lift|intros a]. apply stable_ret.
Qed.

Lemma stable_features I :
  blind_to_tables I →
  (∀ w o, I w → I {| fresh := fresh w; spec := remove_add o (spec w) |}) →
  (∀ w v, I w → I {| fresh := fresh w; spec := set_features v (spec w) |}) →
  stable I features.
Proof.
  intros HI Hrem Hfeat. unfold features.
  apply stable_bind; [apply stable_self|intros s].
  destruct (_features s); [apply stable_ret|].
  apply stable_bind; [apply stable_update; intros w; apply Hfeat|intros _].
  apply stable_bind; [|intros _; apply stable_bind;
                        [apply stable_self|intros; apply stable_ret]].
  apply stable_for. intros element.
  apply stable_bind; [apply stable_lift|intros num].
  apply stable_bind; [by apply stable_Feature_new|intros f].
  apply stable_bind; [apply stable_lift|intros a].
  apply stable_update. intros w. apply Hfeat.
Qed.

Lemma stable_extensions I :
  blind_to_tables I →
  (∀ w v, I w → I {| fresh := fresh w; spec := set_extensions v (spec w) |}) →
  stable I extensions.
Proof.
  intros HI Hext. unfold extensions.
  apply stable_bind; [apply stable_self|intros s].
  destruct (_extensions s); [apply stable_ret|].
  apply stable_bind; [apply stable_update; intros w; apply Hext|intros _].
  apply stable_bind; [apply stable_lift|intros elements].
  apply stable_bind; [|intros _; apply stable_bind;
                        [apply stable_self|intros; apply stable_ret]].
  apply stable_for. intros element.
  apply stable_bind; [apply stable_lift|intros sup].
  apply stable_for. intros a.
  apply stable_bind; [by apply stable_Extension_new|intros e].
  apply stable_bind; [apply stable_update; intros w; apply Hext|intros _].
  apply stable_bind; [apply stable_lift|intros name].
  apply stable_update; intros w; apply Hext.
Qed.

(** One step of a proof that a computation keeps a condition. *)
Ltac stable_step :=
  first
    [ apply stable_ret | apply stable_lift | apply stable_raise | apply stable_self
    | apply stable_bind; [|intros ?]
    | apply stable_for; intros ?
    | apply stable_for_acc; intros ? ?
    | apply stable_mapM; intros ?
    | apply stable_except
    | apply stable_update; intros ? ?
    | apply stable_new; intros ? ?
    | match goal with |- stable _ (match ?x with _ => _ end) => destruct x end ].

(** ** What the derivations never do to the removal set *)

(** X1.  No derivation, constructor or setter ever takes an object out of
    the removal set, whether it returns or raises: the derivations of
    [types], [groups], [enums], [commands] and [extensions], the
    constructor of an extension and the profile setter leave the set as it
    is; the constructor of a feature and the derivation of [features] can
    only add to it. *)
Theorem removal_set_only_grows w :
  _remove (spec (types w).2) = _remove (spec w)
  ∧ _remove (spec (groups w).2) = _remove (spec w)
  ∧ _remove (spec (enums w).2) = _remove (spec w)
  ∧ _remove (spec (commands w).2) = _remove (spec w)
  ∧ _remove (spec (extensions w).2) = _remove (spec w)
  ∧ (∀ value, _remove (spec (profile_setter value w).2) = _remove (spec w))
  ∧ (∀ element, _remove (spec (Extension_new element w).2) = _remove (spec w))
  ∧ (∀ element, _remove (spec w) ⊆ _remove (spec (Feature_new element w).2))
  ∧ _remove (spec w) ⊆ _remove (spec (features w).2).
Proof.
  set (Same := λ w1 : Interp, _remove (spec w1) = _remove (spec w)).
  set (More := λ w1 : Interp, _remove (spec w) ⊆ _remove (spec w1)).
  assert (HS : blind_to_tables Same) by by intros ? ? ? ?.
  assert (HM : blind_to_tables More) by by intros ? ? ? ?.
  split_and!.
  - assert (H : stable Same types) by (unfold types; repeat stable_step; try done).
    by apply H.
  - assert (H : stable Same groups) by (unfold groups; repeat stable_step; try done).
    by apply H.
  - by apply (stable_enums Same).
  - by apply (stable_commands Same).
  - by apply (stable_extensions Same).
  - intros value.
    assert (H : stable Same (profile_setter value))
      by (unfold profile_setter; repeat stable_step; try done).
    by apply H.
  - intros element. by apply (stable_Extension_new Same).
  - intros element. apply (stable_Feature_new More); [done| |unfold More; reflexivity].
    intros w1 o Hw1. unfold More in *. simpl. etrans; [done|apply set_add_subseteq].
  - apply (stable_features More); [done| |done|unfold More; reflexivity].
    intros w1 o Hw1. unfold More in *. simpl. etrans; [done|apply set_add_subseteq].
Qed.

(** ** Memoization, and what a failed access leaves behind *)

Lemma bind_Raise {A B} (c : Py A) (f : A → Py B) w e w' :
  (c ≫= f) w = (Raise e, w') →
  c w = (Raise e, w') ∨ ∃ a w1, c w = (Ok a, w1) ∧ f a w1 = (Raise e, w').
Proof.
  unfold mbind, Py_bind. destruct (c w) as [[a|e'] w1]; [eauto|].
  intros [= -> ->]. by left.
Qed.

Lemma stable_after_update {A} I f (k : Py A) w :
  I {| fresh := fresh w; spec := f (spec w) |} → stable I k →
  I ((update f ≫= λ _, k) w).2.
Proof. intros HI Hk. unfold mbind, Py_bind, update. simpl. by apply Hk. Qed.

Lemma types_cached w v : _types (spec w) = Some v → types w = (Ok v, w).
Proof. intros H. unfold types, mbind, Py_bind, self. by rewrite H. Qed.

Lemma groups_cached w v : _groups (spec w) = Some v → groups w = (Ok v, w).
Proof. intros H. unfold groups, mbind, Py_bind, self. by rewrite H. Qed.

Lemma features_cached w v : _features (spec w) = Some v → features w = (Ok v, w).
Proof. intros H. unfold features, mbind, Py_bind, self. by rewrite H. Qed.

Lemma extensions_cached w v : _extensions (spec w) = Some v → extensions w = (Ok v, w).
Proof. intros H. unfold extensions, mbind, Py_bind, self. by rewrite H. Qed.

Lemma types_Ok w v w' : types w = (Ok v, w') → _types (spec w') = Some v.
Proof.
  unfold types. intros H. run_inv H.
  destruct (_types (spec w)) eqn:E; run_inv H; [by rewrite E|done].
Qed.

Lemma groups_Ok w v w' : groups w = (Ok v, w') → _groups (spec w') = Some v.
Proof.
  unfold groups. intros H. run_inv H.
  destruct (_groups (spec w)) eqn:E; run_inv H; [by rewrite E|done].
Qed.

Lemma features_field w v w' : features w = (Ok v, w') → _features (spec w') = Some v.
Proof.
  intros H. destruct (_features (spec w)) as [v0|] eqn:E.
  - rewrite (features_cached w v0 E) in H. by injection H as <- <-.
  - by apply features_Ok in H as (_ & ? & _).
Qed.

Lemma extensions_field w v w' :
  extensions w = (Ok v, w') → _extensions (spec w') = Some v.
Proof.
  intros H. destruct (_extensions (spec w)) as [v0|] eqn:E.
  - rewrite (extensions_cached w v0 E) in H. by injection H as <- <-.
  - destruct (Element_find "extensions" (root (spec w))) as [c|] eqn:F.
    + by apply (extensions_Ok w v w' c) in H as (_ & ? & _).
    + exfalso. revert H. unfold extensions, mbind, Py_bind, self, update, lift.
      by rewrite E, F.
Qed.

(** After any access, [enums], [features] and [extensions] have their
    field set. *)
Lemma enums_field_set w : is_Some (_enums (spec (enums w).2)).
Proof.
  unfold enums. rewrite (bind_run self _ w (spec w) w eq_refl).
  destruct (_enums (spec w)) eqn:E; [simpl; rewrite E; eauto|].
  apply stable_after_update; [by simpl|].
  repeat stable_step; try done.
Qed.

Lemma features_field_set w : is_Some (_features (spec (features w).2)).
Proof.
  unfold features. rewrite (bind_run self _ w (spec w) w eq_refl).
  destruct (_features (spec w)) eqn:E; [simpl; rewrite E; eauto|].
  apply stable_after_update; [by simpl|].
  apply stable_bind; [|intros; repeat stable_step].
  apply stable_for. intros element.
  apply stable_bind; [apply stable_lift|intros num].
  apply stable_bind.
  { apply stable_Feature_new; [by intros ? ? ? ?|by intros ? ?]. }
  intros f. repeat stable_step. simpl. eauto.
Qed.

Lemma extensions_field_set w : is_Some (_extensions (spec (extensions w).2)).
Proof.
  unfold extensions. rewrite (bind_run self _ w (spec w) w eq_refl).
  destruct (_extensions (spec w)) eqn:E; [simpl; rewrite E; eauto|].
  apply stable_after_update; [by simpl|].
  apply stable_bind; [apply stable_lift|intros elements].
  apply stable_bind; [|intros; repeat stable_step].
  apply stable_for. intros element.
  apply stable_bind; [apply stable_lift|intros sup].
  apply stable_for. intros a.
  apply stable_bind.
  { apply stable_Extension_new. by intros ? ? ? ?. }
  intros e. repeat stable_step; simpl; eauto.
Qed.

(** X2.  Each derived collection is memoized: when an access returns, the
    next access returns the same collection and changes nothing. *)
Theorem derived_collections_are_memoized w :
  (∀ v w', types w = (Ok v, w') → types w' = (Ok v, w'))
  ∧ (∀ v w', groups w = (Ok v, w') → groups w' = (Ok v, w'))
  ∧ (∀ v w', enums w = (Ok v, w') → enums w' = (Ok v, w'))
  ∧ (∀ v w', commands w = (Ok v, w') → commands w' = (Ok v, w'))
  ∧ (∀ v w', features w = (Ok v, w') → features w' = (Ok v, w'))
  ∧ (∀ v w', extensions w = (Ok v, w') → extensions w' = (Ok v, w')).
Proof.
  split_and!; intros v w' H.
  - by apply types_cached, (types_Ok w).
  - by apply groups_cached, (groups_Ok w).
  - apply enums_cached. by apply enums_Ok in H as [_ ?].
  - apply commands_cached. by apply commands_Ok in H as [_ ?].
  - by apply features_cached, (features_field w).
  - by apply extensions_cached, (extensions_field w).
Qed.

(** X3.  What a failed first access leaves behind.  [enums], [features] and
    [extensions] set their field before they read the document, so once an
    access has raised, the next access returns what had been filled in, and
    does not raise.  [groups] and [commands] set theirs last: a failed
    access to [groups] changes nothing, one to [commands] leaves the
    specification as it was with the field unset. *)
Theorem failed_access_leaves_cache w e w' :
  (enums w = (Raise e, w') → ∃ t, enums w' = (Ok t, w'))
  ∧ (features w = (Raise e, w') → ∃ t, features w' = (Ok t, w'))
  ∧ (extensions w = (Raise e, w') → ∃ t, extensions w' = (Ok t, w'))
  ∧ (groups w = (Raise e, w') → w' = w)
  ∧ (commands w = (Raise e, w') → spec w' = spec w ∧ _commands (spec w') = None).
Proof.
  split_and!; intros H.
  - pose proof (enums_field_set w) as [t Ht]. rewrite H in Ht.
    exists t. by apply enums_cached.
  - pose proof (features_field_set w) as [t Ht]. rewrite H in Ht.
    exists t. by apply features_cached.
  - pose proof (extensions_field_set w) as [t Ht]. rewrite H in Ht.
    exists t. by apply extensions_cached.
  - unfold groups in H. rewrite (bind_run self _ w (spec w) w eq_refl) in H.
    destruct (_groups (spec w)) eqn:E; [done|].
    apply bind_Raise in H as [H|(els & w1 & Hels & H)]; [by injection H as _ <-|].
    apply lift_Ok in Hels as [_ ->].
    apply bind_Raise in H as [H|(ps & w1 & _ & H)]; [by injection H as _ <-|].
    apply bind_Raise in H as [H|(? & ? & _ & H)]; discriminate.
  - unfold commands in H. rewrite (bind_run self _ w (spec w) w eq_refl) in H.
    destruct (_commands (spec w)) eqn:E; [done|].
    apply bind_Raise in H as [H|(els & w1 & Hels & H)]; [by injection H as _ <-|].
    apply lift_Ok in Hels as [_ ->].
    apply bind_Raise in H as [H|(ps & w1 & _ & H)].
    + match type of H with ?c w = _ =>
        assert (Hs : stable (λ w1, spec w1 = spec w) c) end.
      { repeat stable_step; try done. }
      specialize (Hs w eq_refl). rewrite H in Hs. simpl in Hs. by rewrite Hs.
    + apply bind_Raise in H as [H|(? & ? & _ & H)]; discriminate.
Qed.

(** ** Where the entries of the tables come from *)

Lemma result_mapM_Ok {A B} (f : A → result B) l bs :
  mapM f l = Ok bs → Forall2 (λ x b, f x = Ok b) l bs.
Proof.
  revert bs. induction l as [|x l IH]; intros bs H; simpl in H.
  { injection H as <-. constructor. }
  apply result_bind_Ok in H as (b & Hb & H).
  apply result_bind_Ok in H as (k & Hk & H). injection H as <-.
  constructor; auto.
Qed.

Lemma mapM_Ok_Forall2 {A B} (f : A → Py B) (R : A → B → Prop) l w bs w' :
  (∀ x b w1 w2, f x w1 = (Ok b, w2) → R x b) →
  mapM f l w = (Ok bs, w') → Forall2 R l bs.
Proof.
  intros HR. revert w bs. induction l as [|x l IH]; intros w bs H; simpl in H.
  { apply ret_Ok in H as [-> _]. constructor. }
  apply bind_Ok in H as (b & w1 & Hb & H).
  apply bind_Ok in H as (k & w2 & Hk & H). apply ret_Ok in H as [-> ->].
  constructor; [by eapply HR|by eapply IH].
Qed.

Lemma dict_of_is_Some `{Countable K} {V} (l : list (K * V)) k v :
  (k, v) ∈ l → is_Some (dict_of l !! k).
Proof.
  unfold dict_of.
  assert (G : ∀ d : gmap K V, is_Some (d !! k) ∨ (k, v) ∈ l →
                is_Some (foldl (λ d kv, <[kv.1 := kv.2]> d) d l !! k)).
  { induction l as [|[k' v'] l IH]; intros d [Hd|Hin]; simpl.
    - done.
    - by apply elem_of_nil in Hin.
    - apply IH. left. destruct (decide (k' = k)) as [->|Hne].
      + rewrite lookup_insert_eq. eauto.
      + by rewrite lookup_insert_ne.
    - apply elem_of_cons in Hin as [[= <- <-]|Hin].
      + apply IH. left. rewrite lookup_insert_eq. eauto.
      + apply IH. by right. }
  intros Hin. apply G. by right.
Qed.

Lemma Forall2_elem_r {A B} (R : A → B → Prop) l k b :
  Forall2 R l k → b ∈ k → ∃ a, a ∈ l ∧ R a b.
Proof.
  induction 1 as [|x y l k Hxy _ IH]; [by intros ?%elem_of_nil|].
  intros [->|Hin]%elem_of_cons.
  - exists x. split; [by left|done].
  - destruct (IH Hin) as (a & Ha & HR). exists a. split; [by right|done].
Qed.

Lemma Forall2_elem_l {A B} (R : A → B → Prop) l k a :
  Forall2 R l k → a ∈ l → ∃ b, b ∈ k ∧ R a b.
Proof.
  induction 1 as [|x y l k Hxy _ IH]; [by intros ?%elem_of_nil|].
  intros [->|Hin]%elem_of_cons.
  - exists y. split; [by left|done].
  - destruct (IH Hin) as (b & Hb & HR). exists b. split; [by right|done].
Qed.

Lemma Group__init___Ok element g :
  Group__init__ element = Ok g →
  attrib element !! "name" = Some (Group_name g)
  ∧ Forall2 (λ c n, attrib c !! "name" = Some n) (children element) (Group_enums g).
Proof.
  unfold Group__init__. intros H.
  apply result_bind_Ok in H as (n & Hn & H).
  apply result_bind_Ok in H as (ns & Hns & H). injection H as <-. simpl.
  split.
  - unfold getitem in Hn. by destruct (attrib element !! "name"); simplify_eq.
  - apply result_mapM_Ok in Hns. eapply Forall2_impl; [exact Hns|].
    intros c n' Hc. unfold getitem in Hc. by destruct (attrib c !! "name"); simplify_eq.
Qed.

(** X4.  A first access to [groups] that returns has found the [groups]
    container; every entry of the table is stored under its own name and
    was built from a child of the container of that name, with the names of
    that child's children, in order, as its list; every child of the
    container has its name as a key. *)
Theorem groups_table w t w' :
  _groups (spec w) = None → groups w = (Ok t, w') →
  ∃ container,
    Element_find "groups" (root (spec w)) = Some container
    ∧ (∀ k g, t !! k = Some g →
         Group_name g = k
         ∧ ∃ element, element ∈ children container
             ∧ attrib element !! "name" = Some k
             ∧ Forall2 (λ c n, attrib c !! "name" = Some n)
                       (children element) (Group_enums g))
    ∧ (∀ element, element ∈ children container →
         ∃ k, attrib element !! "name" = Some k ∧ is_Some (t !! k)).
Proof.
  intros Hnone H. unfold groups in H. run_inv H. rewrite Hnone in H. run_inv H.
  match goal with Hi : iterate ?o = Ok _ |- _ =>
    destruct o as [container|] eqn:Hfind; [injection Hi as <-|discriminate] end.
  exists container. split; [done|].
  match goal with Hm : mapM _ _ = Ok _ |- _ => apply result_mapM_Ok in Hm as HF end.
  split.
  - intros k g [element [Hel Hkg]]%dict_of_lookup%(Forall2_elem_r _ _ _ _ HF).
    apply result_bind_Ok in Hkg as (k' & Hk' & Hkg).
    apply result_bind_Ok in Hkg as (g' & Hg' & Hkg). injection Hkg as -> ->.
    apply Group__init___Ok in Hg' as [Hname Hch].
    unfold getitem in Hk'.
    destruct (attrib element !! "name") as [n|] eqn:En; [|done].
    injection Hk' as ->. injection Hname as ->.
    split; [done|]. exists element. by split_and!.
  - intros element [[k g] [Hin Hkg]]%(Forall2_elem_l _ _ _ _ HF).
    apply result_bind_Ok in Hkg as (k' & Hk' & Hkg).
    apply result_bind_Ok in Hkg as (g' & Hg' & Hkg). injection Hkg as -> ->.
    exists k. split.
    + unfold getitem in Hk'. by destruct (attrib element !! "name"); simplify_eq.
    + by apply (dict_of_is_Some _ _ g).
Qed.

(** X5.  A first access to [commands] that returns has found the
    [commands] container; every entry is stored under the name of its
    prototype, which is what [str] prints, and is what the constructor of a
    command gives on some child of the container; every child of the
    container was so constructed and its name is a key. *)
Theorem commands_table w t w' :
  _commands (spec w) = None → commands w = (Ok t, w') →
  ∃ container,
    Element_find "commands" (root (spec w)) = Some container
    ∧ (∀ k c, t !! k = Some c →
         Proto_name (proto c) = k
         ∧ (∀ n, k = Some n → Command__str__ c = n)
         ∧ ∃ element, element ∈ children container
             ∧ Command__init__ (Command_id c) element = Ok c)
    ∧ (∀ element, element ∈ children container →
         ∃ c, Command__init__ (Command_id c) element = Ok c
              ∧ is_Some (t !! Proto_name (proto c))).
Proof.
  intros Hnone H. unfold commands in H. run_inv H. rewrite Hnone in H. run_inv H.
  match goal with Hi : iterate ?o = Ok _ |- _ =>
    destruct o as [container|] eqn:Hfind; [injection Hi as <-|discriminate] end.
  exists container. split; [done|].
  match goal with Hm : mapM _ _ _ = (Ok _, _) |- _ =>
    apply (mapM_Ok_Forall2 _
             (λ element kc, Proto_name (proto kc.2) = kc.1
                            ∧ Command__init__ (Command_id kc.2) element = Ok kc.2))
      in Hm as HF end.
  2:{ clear. intros element [k c] w1 w2 H. run_inv H. unfold Command_new in *.
      repeat match goal with
             | H : (_ ≫= _) _ = (Ok _, _) |- _ => run_inv H
             end.
      match goal with Hp : (k, c) = _ |- _ => injection Hp as -> -> end.
      match goal with Hc : Command__init__ _ _ = Ok _ |- _ =>
        pose proof (Command__init___name _ _ _ Hc) as [Hid Hname] end.
      simpl. split.
      - match goal with Hk' : _ ≫= text_of = Ok ?a |- _ =>
          is_var a; rewrite Hk' in Hname; by injection Hname as -> end.
      - by rewrite Hid. }
  split.
  - intros k c [element [Hel [Hk Hc]]]%dict_of_lookup%(Forall2_elem_r _ _ _ _ HF).
    simpl in *. split_and!; [done| |eauto].
    intros n ->. unfold Command__str__. by rewrite Hk.
  - intros element [[k c] [Hin [Hk Hc]]]%(Forall2_elem_l _ _ _ _ HF). simpl in *.
    exists c. split; [done|]. rewrite Hk. by apply (dict_of_is_Some _ _ c).
Qed.

Lemma enums_from_iff P Q w :
  (∀ el en, P el en ↔ Q el en) → enums_from P w → enums_from Q w.
Proof.
  intros HPQ (t & Ht & HA & HB). exists t. split_and!; [done| |].
  - intros k e He. destruct (HA k e He) as (? & el & en & HP & ?).
    split; [done|]. exists el, en. split; [by apply HPQ|done].
  - intros el en HQ. apply (HB el en). by apply HPQ.
Qed.

Lemma enums_from_insert P w element enum e :
  enums_from P w → enum_of element enum e →
  enums_from (λ el en, P el en ∨ (el = element ∧ en = enum))
    {| fresh := Pos.succ (fresh w);
       spec := enums_setitem (Enum_name e) e (spec w) |}.
Proof.
  intros (t & Ht & HA & HB) Hof. eexists. split; [simpl; reflexivity|].
  rewrite Ht. simpl. split.
  - intros k e' [[<- <-]|[Hne He']]%lookup_insert_Some.
    + split; [done|]. exists element, enum. split; [by right|done].
    + destruct (HA k e' He') as (? & el & en & HP & ?).
      split; [done|]. exists el, en. split; [by left|done].
  - intros el en [HP|[-> ->]] Hu.
    + destruct (HB el en HP Hu) as (? & k & Hk & [e' He']). split; [done|].
      exists k. split; [done|]. destruct (decide (Enum_name e = k)) as [->|Hne].
      * rewrite lookup_insert_eq. eauto.
      * rewrite lookup_insert_ne by done. eauto.
    + destruct Hof as (Htag & Hname & _). split; [done|].
      exists (Enum_name e). split; [done|]. rewrite lookup_insert_eq. eauto.
Qed.

Lemma enums_from_unused P w element enum :
  enums_from P w → tag enum = "unused" →
  enums_from (λ el en, P el en ∨ (el = element ∧ en = enum)) w.
Proof.
  intros (t & Ht & HA & HB) Hu. exists t. split_and!; [done| |].
  - intros k e He. destruct (HA k e He) as (? & el & en & HP & ?).
    split; [done|]. exists el, en. split; [by left|done].
  - intros el en [HP|[-> ->]] Hnu; [by apply (HB el en)|done].
Qed.

(** X6.  After a first access to [enums] that returns, every entry is
    stored under its name, which is what [str] prints, and describes an
    [enum] child of some [enums] node: its [name] and [value], and the
    [namespace], [type], [group], [vendor] and [comment] of the node
    (the empty string for a missing comment); every child of an [enums] node that is
    not [unused] is an [enum] and has its name as a key. *)
Theorem enums_table w t w' :
  _enums (spec w) = None → enums w = (Ok t, w') →
  (∀ k e, t !! k = Some e →
     Enum__str__ e = k
     ∧ ∃ element enum, element ∈ Element_iter "enums" (root (spec w))
         ∧ enum ∈ children element ∧ enum_of element enum e)
  ∧ (∀ element enum, element ∈ Element_iter "enums" (root (spec w)) →
       enum ∈ children element → tag enum ≠ "unused" →
       tag enum = "enum" ∧ ∃ k, attrib enum !! "name" = Some k ∧ is_Some (t !! k)).
Proof.
  intros E H. unfold enums in H. run_inv H. rewrite E in H. run_inv H.
  set (P := λ (pre : list Element) (el en : Element), el ∈ pre ∧ en ∈ children el).
  match goal with Hrun : for_ _ _ _ = (Ok _, ?wf) |- _ =>
    assert (HI : enums_from (P (Element_iter "enums" (root (spec w)))) wf);
      [eapply (for_Ok _ (λ pre w1, enums_from (P pre) w1)); [| |exact Hrun]|] end.
  - exists ∅. split; [done|]. split.
    + intros k e. by rewrite lookup_empty.
    + intros el en [Hel _]. by apply elem_of_nil in Hel.
  - clear. intros pre x w1 w2 HI H. run_inv H.
    match goal with Hns : getitem (attrib x) "namespace" = Ok ?ns |- _ =>
      unfold getitem in Hns;
      destruct (attrib x !! "namespace") as [ns'|] eqn:Ens; [injection Hns as ->|done]
    end.
    set (Q := λ (ens : list Element) (el en : Element),
           P pre el en ∨ (el = x ∧ en ∈ ens)).
    eapply (for_Ok _ (λ ens w2, enums_from (Q ens) w2)) in H.
    + eapply enums_from_iff; [|exact H]. intros el en. unfold Q, P.
      rewrite elem_of_app, list_elem_of_singleton. split.
      * intros [[? ?]|[-> ?]]; [tauto|]. split; [by right|done].
      * intros [[?| ->] ?]; [left|right]; tauto.
    + eapply enums_from_iff; [|exact HI]. intros el en. unfold Q.
      rewrite elem_of_nil. tauto.
    + clear -Ens. intros ens enum w1 w2 HI H.
      assert (HQ : ∀ el en, (Q ens el en ∨ (el = x ∧ en = enum))
                            ↔ Q (ens ++ [enum]) el en).
      { intros el en. unfold Q. rewrite elem_of_app, list_elem_of_singleton. tauto. }
      case_bool_decide as Hu.
      { run_inv H. eapply enums_from_iff; [exact HQ|]. by apply enums_from_unused. }
      run_inv H. unfold Enum_new in *.
      case_bool_decide as Ht; run_inv H0.
      repeat match goal with
             | H : (_ ≫= _) _ = (Ok _, _) |- _ => run_inv H
             end.
      repeat match goal with
             | Hg : getitem (attrib enum) ?key = Ok _ |- _ =>
                 unfold getitem in Hg;
                 let E := fresh "Eattr" in
                 destruct (attrib enum !! key) eqn:E; [injection Hg as ->|done]
             end.
      eapply enums_from_iff; [exact HQ|].
      match goal with |- enums_from _ {| fresh := _; spec := enums_setitem ?n ?e _ |} =>
        apply (enums_from_insert _ _ x enum e HI) end.
      by split_and!.
  - destruct HI as (t' & Ht & HA & HB). rewrite Ht. simpl. split.
    + intros k e He. destruct (HA k e He) as (Hn & el & en & [? ?] & ?).
      split; [done|]. by exists el, en.
    + intros el en Hel Hen. by apply (HB el en).
Qed.

(** ** The [features] collection *)

Lemma odict_get_set {K V} `{EqDecision K} (k k' : K) (v : V) l :
  odict_get k' (odict_set k v l) = if decide (k' = k) then Some v else odict_get k' l.
Proof.
  induction l as [|[k0 v0] l IH]; simpl.
  - by repeat case_decide.
  - destruct (decide (k = k0)) as [->|Hne]; simpl.
    + by repeat case_decide; simplify_eq.
    + rewrite IH. by repeat case_decide; simplify_eq.
Qed.

Lemma odict_set_keys {K V} `{EqDecision K} (k k' : K) (v : V) l :
  k' ∈ (odict_set k v l).*1 ↔ k' = k ∨ k' ∈ l.*1.
Proof.
  induction l as [|[k0 v0] l IH]; simpl.
  - rewrite list_elem_of_singleton, elem_of_nil. tauto.
  - destruct (decide (k = k0)) as [->|Hne]; simpl.
    + rewrite !elem_of_cons. tauto.
    + rewrite !elem_of_cons, IH. tauto.
Qed.

Lemma odict_set_NoDup {K V} `{EqDecision K} (k : K) (v : V) l :
  NoDup l.*1 → NoDup (odict_set k v l).*1.
Proof.
  induction l as [|[k0 v0] l IH]; simpl.
  - intros _. apply NoDup_singleton.
  - intros [Hnot Hnd]%NoDup_cons. destruct (decide (k = k0)) as [->|Hne]; simpl.
    + by apply NoDup_cons.
    + apply NoDup_cons. split; [|auto]. rewrite odict_set_keys. naive_solver.
Qed.

Lemma features_store a n f s :
  _features (features_setitem a n f s) =
    Some (<[a := odict_set n f (default [] (default ∅ (_features s) !! a))]>
            (default ∅ (_features s))).
Proof.
  unfold features_setitem, touch. simpl. f_equal.
  destruct (default ∅ (_features s) !! a) as [l|] eqn:E; simpl.
  - by rewrite E.
  - rewrite lookup_insert_eq. simpl. by rewrite insert_insert_eq.
Qed.

Lemma feat_at_store d a n f a' n' :
  feat_at (<[a := odict_set n f (default [] (d !! a))]> d) a' n' =
    if decide (a' = a ∧ n' = n) then Some f else feat_at d a' n'.
Proof.
  unfold feat_at. destruct (decide (a' = a)) as [->|Ha].
  - rewrite lookup_insert_eq. simpl. rewrite odict_get_set.
    destruct (decide (n' = n)) as [->|Hn].
    + by rewrite decide_True.
    + rewrite decide_False by naive_solver. by destruct (d !! a).
  - rewrite lookup_insert_ne by done. by rewrite decide_False by naive_solver.
Qed.

Lemma features_ok_iff P Q w :
  (∀ el, P el ↔ Q el) → features_ok P w → features_ok Q w.
Proof.
  intros HPQ (d & Hd & HA & HB & HC & HD). exists d. split_and!; [done| |done| |done].
  - intros a n f Hf. destruct (HA a n f Hf) as (? & ? & ? & el & HP & ?).
    split_and!; [done..|]. exists el. split; [by apply HPQ|done].
  - intros el a n HQ. apply (HC el). by apply HPQ.
Qed.

Lemma Feature_new_features element w :
  _features (spec (Feature_new element w).2) = _features (spec w).
Proof.
  apply (stable_Feature_new (λ w1, _features (spec w1) = _features (spec w)));
    [by intros ? ? ? ?|by intros ? ?|done].
Qed.

Lemma feature_of_grows w w' element f :
  grows w w' → feature_of w element f → feature_of w' element f.
Proof.
  intros G (? & ? & ? & Hr). split_and!; [done..|].
  intros w'' G'. apply Hr. by etrans.
Qed.

Lemma features_step P x w f w1 :
  features_ok P w →
  Feature_new x w = (Ok f, w1) →
  features_ok (λ el, P el ∨ el = x)
    {| fresh := fresh w1; spec := features_setitem (api f) (number f) f (spec w1) |}.
Proof.
  intros (d & Hd & HA & HB & HC & HD) Hnew.
  assert (Hd1 : _features (spec w1) = Some d).
  { rewrite <- Hd. pose proof (Feature_new_features x w) as E. by rewrite Hnew in E. }
  apply Feature_new_Ok in Hnew as (G & Hid & Hf & Hname & Hver & Hapi & Hreq & _).
  set (w2 := {| fresh := fresh w1;
                spec := features_setitem (api f) (number f) f (spec w1) |}).
  assert (G2 : grows w1 w2) by apply grows_features_setitem.
  eexists. split; [apply features_store|]. rewrite Hd1. simpl.
  split_and!.
  - intros a n f'. rewrite feat_at_store. case_decide as Hc.
    + destruct Hc as [-> ->]. intros [= <-]. split_and!; [done|done|lia|].
      exists x. split; [by right|]. split_and!; [done..|].
      intros w'' G''. apply Hreq. by etrans.
    + intros Hf'. destruct (HA a n f' Hf') as (? & ? & ? & el & HP & Hof).
      split_and!; [done|done|lia|]. exists el. split; [by left|].
      eapply feature_of_grows; [|exact Hof]. by etrans.
  - intros a1 n1 f1 a2 n2 f2. rewrite !feat_at_store.
    case_decide as Hc1; case_decide as Hc2.
    + naive_solver.
    + intros [= <-] H2 Heq. destruct (HA _ _ _ H2) as (_ & _ & ? & _). lia.
    + intros H1 [= <-] Heq. destruct (HA _ _ _ H1) as (_ & _ & ? & _). lia.
    + eauto.
  - intros el a n [HP| ->] Ha Hn; rewrite feat_at_store; case_decide; eauto.
    rewrite Hapi in Ha. rewrite Hver in Hn. naive_solver.
  - intros a l [[<- <-]|[Hne Hl]]%lookup_insert_Some; [|eauto].
    apply odict_set_NoDup. destruct (d !! api f) as [l|] eqn:El; simpl; [eauto|].
    apply NoDup_nil_2.
Qed.

Lemma features_Ok_table w fs w' :
  _features (spec w) = None → features w = (Ok fs, w') →
  features_ok (λ el, el ∈ Element_iter "feature" (root (spec w))) w'
  ∧ _features (spec w') = Some fs.
Proof.
  intros Hnone H. pose proof (features_field _ _ _ H) as Hfs. split; [|done].
  unfold features in H.
  apply bind_Ok in H as (s & w1 & Hs & H). apply self_Ok in Hs as [-> ->].
  rewrite Hnone in H.
  apply bind_Ok in H as ([] & w1 & Hu & H). apply update_Ok in Hu as ->.
  apply bind_Ok in H as ([] & w2 & Hloop & H).
  apply bind_Ok in H as (s & w3 & Hs & H). apply self_Ok in Hs as [-> ->].
  apply ret_Ok in H as [_ ->].
  eapply (for_Ok _ (λ pre w2, features_ok (λ el, el ∈ pre) w2)); [| |exact Hloop].
  - exists ∅. split; [done|]. split_and!.
    + intros a n f. unfold feat_at. by rewrite lookup_empty.
    + intros a1 n1 f1 a2 n2 f2. unfold feat_at. by rewrite lookup_empty.
    + intros el a n Hel. by apply elem_of_nil in Hel.
    + intros a l. by rewrite lookup_empty.
  - clear. intros pre x w1 w2 HI H. cbv beta in H.
    apply bind_Ok in H as (num & w3 & Hnum & H). apply lift_Ok in Hnum as [Hnum ->].
    apply bind_Ok in H as (f & w3 & Hnew & H).
    apply bind_Ok in H as (a & w4 & Hapi & H). apply lift_Ok in Hapi as [Hapi ->].
    apply update_Ok in H as ->.
    pose proof (Feature_new_Ok _ _ _ _ Hnew) as (_ & _ & _ & _ & Hver & Ha & _).
    rewrite Hver in Hnum. injection Hnum as <-.
    unfold getitem in Hapi. rewrite Ha in Hapi. injection Hapi as <-.
    eapply features_ok_iff; [|exact (features_step _ x w1 f w3 HI Hnew)].
    intros el. rewrite elem_of_app, list_elem_of_singleton. tauto.
Qed.

(** X7.  After a first access to [features] that returns, every feature of
    the collection is stored under its own api and version and was built
    from a feature node with these attributes, whose require entries give
    its require list; every feature node is represented under its api and
    version; features under different keys are different objects; and no
    version occurs twice for one api. *)
Theorem features_table w fs w' :
  _features (spec w) = None → features w = (Ok fs, w') →
  (∀ a n f, feat_at fs a n = Some f →
     api f = a ∧ number f = n
     ∧ ∃ element, element ∈ Element_iter "feature" (root (spec w))
         ∧ attrib element !! "api" = Some a
         ∧ version element = Ok n
         ∧ attrib element !! "name" = Some (Extension_name (base f))
         ∧ require (base f) = omap (resolve (spec w')) (chained "require" element))
  ∧ (∀ element, element ∈ Element_iter "feature" (root (spec w)) →
       ∃ a n, attrib element !! "api" = Some a ∧ version element = Ok n
              ∧ is_Some (feat_at fs a n))
  ∧ (∀ a1 n1 f1 a2 n2 f2, feat_at fs a1 n1 = Some f1 → feat_at fs a2 n2 = Some f2 →
       (a1, n1) ≠ (a2, n2) → Extension_id (base f1) ≠ Extension_id (base f2))
  ∧ (∀ a l, fs !! a = Some l → NoDup l.*1).
Proof.
  intros Hnone H.
  destruct (features_Ok_table w fs w' Hnone H) as [(d & Hd & HA & HB & HC & HD) Hfs].
  rewrite Hfs in Hd. injection Hd as <-.
  split_and!.
  - intros a n f Hf.
    destruct (HA a n f Hf) as (<- & <- & _ & el & Hel & Ha & Hv & Hn & Hr).
    split_and!; [done..|]. exists el. split_and!; [done..|]. by apply Hr.
  - intros el Hel. unfold features in H.
    apply bind_Ok in H as (s & w1 & Hs & H). apply self_Ok in Hs as [-> ->].
    rewrite Hnone in H.
    apply bind_Ok in H as ([] & w1 & Hu & H). apply update_Ok in Hu as ->.
    apply bind_Ok in H as ([] & w2 & Hloop & _).
    assert (Hall : ∀ el, el ∈ Element_iter "feature" (root (spec w)) →
                     ∃ a n, attrib el !! "api" = Some a ∧ version el = Ok n).
    { eapply (for_Ok _ (λ pre _, ∀ el, el ∈ pre →
                ∃ a n, attrib el !! "api" = Some a ∧ version el = Ok n));
        [| |exact Hloop].
      - intros ? ?%elem_of_nil. done.
      - clear. intros pre x w1 w2 HI H el. cbv beta in H.
        rewrite elem_of_app, list_elem_of_singleton. intros [?| ->]; [eauto|].
        apply bind_Ok in H as (num & w3 & Hnum & H).
        apply lift_Ok in Hnum as [Hnum ->].
        apply bind_Ok in H as (f & w3 & Hnew & H).
        apply bind_Ok in H as (a & w4 & Hapi & H). apply lift_Ok in Hapi as [Hapi _].
        unfold getitem in Hapi. destruct (attrib x !! "api") eqn:E; [|done]. eauto. }
    destruct (Hall el Hel) as (a & n & Ha & Hn). exists a, n.
    split_and!; [done..|]. by apply (HC el).
  - intros a1 n1 f1 a2 n2 f2 H1 H2 Hne Heq.
    destruct (HB _ _ _ _ _ _ H1 H2 Heq) as [-> ->]. done.
  - done.
Qed.

(** ** The views *)

Lemma filter_all {A} (P : A → Prop) `{∀ x, Decision (P x)} (l : list A) :
  (∀ x, x ∈ l → P x) → filter P l = l.
Proof.
  induction l as [|x l IH]; intros Hall; [done|].
  rewrite filter_cons_True by (apply Hall; by left).
  f_equal. apply IH. intros y Hy. apply Hall. by right.
Qed.

(** X8.  The views of a feature are sublists of the views it inherits.
    Under any profile but ["core"] they are the inherited views, whatever
    the removal set holds; under ["core"] they keep exactly the objects
    whose identity is not in the removal set. *)
Theorem feature_views_by_profile f s :
  (_profile s ≠ "core" →
     Feature_enums f s = Extension_enums (base f)
     ∧ Feature_functions f s = Extension_functions (base f))
  ∧ Feature_enums f s `sublist_of` Extension_enums (base f)
  ∧ Feature_functions f s `sublist_of` Extension_functions (base f)
  ∧ (_profile s = "core" →
       (∀ e, e ∈ Feature_enums f s ↔
             e ∈ Extension_enums (base f) ∧ _remove s !! Enum_id e = None)
       ∧ (∀ c, c ∈ Feature_functions f s ↔
               c ∈ Extension_functions (base f) ∧ _remove s !! Command_id c = None)).
Proof.
  unfold Feature_enums, Feature_functions. split_and!.
  - intros Hp. unfold removed. rewrite bool_decide_eq_false_2 by done.
    split; apply filter_all; intros x _; unfold set_in;
      apply bool_decide_eq_false; rewrite lookup_empty; by intros [? ?].
  - apply sublist_filter.
  - apply sublist_filter.
  - intros Hp. unfold removed. rewrite bool_decide_eq_true_2 by done.
    split; intros x; rewrite list_elem_of_filter; unfold set_in;
      rewrite bool_decide_eq_false, <- eq_None_not_Some; simpl; tauto.
Qed.

(** X9.  The two views of an extension split its require list: each is a
    sublist of it, in order, every required object is in exactly the view
    of its class, and the lengths add up. *)
Theorem extension_views_split_require e :
  (OEnum <$> Extension_enums e) `sublist_of` require e
  ∧ (OCommand <$> Extension_functions e) `sublist_of` require e
  ∧ (length (Extension_enums e) + length (Extension_functions e))%nat
    = length (require e)
  ∧ (∀ x, OEnum x ∈ require e ↔ x ∈ Extension_enums e)
  ∧ (∀ c, OCommand c ∈ require e ↔ c ∈ Extension_functions e).
Proof.
  unfold Extension_enums, Extension_functions.
  induction (require e) as [|[x|c] l (IH1 & IH2 & IH3 & IH4 & IH5)]; simpl in *.
  - split_and!; try done; intros ?; by rewrite !elem_of_nil.
  - split_and!.
    + by apply sublist_skip.
    + by apply sublist_cons.
    + apply (f_equal S IH3).
    + intros y. rewrite !elem_of_cons, <- IH4. naive_solver.
    + intros y. rewrite !elem_of_cons, <- IH5. naive_solver.
  - split_and!.
    + by apply sublist_cons.
    + by apply sublist_skip.
    + rewrite Nat.add_succ_r. apply (f_equal S IH3).
    + intros y. rewrite !elem_of_cons, <- IH4. naive_solver.
    + intros y. rewrite !elem_of_cons, <- IH5. naive_solver.
Qed.

(** ** Entries that raise *)

Lemma require_body_unknown w et ct acc r :
  cached w et ct → ¬ known_tag r → require_body acc r w = (Raise KeyError, w).
Proof.
  intros [He Hc] Hk. unfold known_tag in Hk.
  rewrite !elem_of_cons, elem_of_nil in Hk.
  unfold require_body. rewrite bool_decide_eq_false_2 by tauto.
  apply bind_raise. rewrite (table_cached _ _ _ _ He Hc).
  by rewrite !bool_decide_eq_false_2 by tauto.
Qed.

Lemma require_loop_unknown w et ct acc l :
  cached w et ct → Exists (λ r, ¬ known_tag r) l →
  for_acc require_body acc l w = (Raise KeyError, w).
Proof.
  intros C Hex. revert acc. induction l as [|r l IH]; intros acc.
  { by apply Exists_nil in Hex. }
  simpl. destruct (decide (tag r ∈ ["type"; "enum"; "command"])) as [Hk|Hk].
  - rewrite (bind_run _ _ _ _ _ (require_body_cached w et ct acc r C Hk)).
    apply IH. by apply Exists_cons in Hex as [?|?].
  - apply bind_raise. by apply (require_body_unknown w et ct).
Qed.

(** X10.  An entry of a require block whose tag is none of [type], [enum]
    and [command] is not skipped: with the tables derived, the constructor
    of the extension raises [KeyError], from the choice of the table, where
    no handler is in place. *)
Theorem unknown_tag_raises_KeyError w et ct i element name :
  cached w et ct →
  attrib element !! "name" = Some name →
  Exists (λ r, ¬ known_tag r) (chained "require" element) →
  Extension__init__ i element w = (Raise KeyError, w).
Proof.
  intros C Hn Hex. unfold Extension__init__.
  assert (Hname : lift (getitem (attrib element) "name") w = (Ok name, w)).
  { unfold lift, getitem. by rewrite Hn. }
  rewrite (bind_run _ _ _ _ _ Hname).
  apply bind_raise. by apply (require_loop_unknown w et ct).
Qed.

(** X11.  A feature node without [api] makes the constructor raise
    [KeyError] only after its remove blocks have been read: the objects
    they name are in the removal set when the exception leaves. *)
Theorem feature_without_api_keeps_its_removals w et ct i element name num :
  cached w et ct →
  attrib element !! "name" = Some name →
  Forall known_tag (chained "require" element) →
  Forall known_tag (chained "remove" element) →
  version element = Ok num →
  attrib element !! "api" = None →
  Feature__init__ i element w =
    (Raise KeyError, add_all (omap (lookup_entry et ct) (chained "remove" element)) w).
Proof.
  intros C Hn Hreq Hrem Hnum Hapi. pose proof C as [He Hc].
  unfold Feature__init__.
  pose proof (Extension__init___run w et w ct w i element name
                (enums_cached _ _ He) (commands_cached _ _ Hc) Hn Hreq) as Hext.
  assert (Hw : (if forallb is_type (chained "require" element) then w else w) = w)
    by by destruct (forallb _ _).
  rewrite Hw in Hext. rewrite (bind_run _ _ _ _ _ Hext).
  rewrite (bind_run _ _ _ _ _ (remove_loop_cached w et ct _ Hrem C)).
  unfold mbind, Py_bind, lift, getitem. by rewrite Hnum, Hapi.
Qed.

(** ** Version tuples *)





(** ** Type descriptors *)







Lemma replace_absent a old new s :
  PyStr.contains (String a old) s = false →
  PyStr.replace (String a old) new s = s.
Proof.
  unfold PyStr.replace. induction s as [|c s IH]; [done|].
  intros H. cbn [PyStr.contains] in H. apply orb_false_iff in H as [Hst Hc].
  cbn [PyStr.replace_from]. rewrite Hst. f_equal. by apply IH.
Qed.

(** X14.  The two renderings raise [TypeError] when the base type is [None]
    and the type is not const, and return otherwise; on a type that is not
    const they agree whenever the call form holds no [struct ] to strip. *)
Theorem rendering_raises_only_without_type t :
  (OGLType_type t = None → is_const t = false →
     to_d t = Raise TypeError ∧ to_c t = Raise TypeError)
  ∧ (is_Some (OGLType_type t) ∨ is_const t = true →
       ∃ d c, to_d t = Ok d ∧ to_c t = Ok c)
  ∧ (∀ c, is_const t = false → to_c t = Ok c →
       PyStr.contains "struct " c = false → to_d t = Ok c).
Proof.
  unfold to_d, to_c. destruct t as [ty n k]. simpl. split_and!.
  - intros -> ->. rewrite andb_false_r. done.
  - intros [[name ->]| ->].
    + destruct k; [|rewrite andb_false_r]; simpl;
        [destruct (bool_decide _)|]; simpl; eauto.
    + rewrite andb_true_r. destruct (bool_decide _); simpl; eauto.
  - intros c -> Hc Habs. rewrite andb_false_r. rewrite Hc. simpl.
    by rewrite replace_absent.
Qed.

(** ** Nothing is hidden that no feature removed *)

Lemma set_add_lookup o s i o' :
  set_add o s !! i = Some o' → s !! i = Some o' ∨ (o' = o ∧ i = id_of o).
Proof.
  unfold set_add. destruct (s !! id_of o) eqn:E; [by left|].
  intros [[<- <-]|[_ ?]]%lookup_insert_Some; [by right|by left].
Qed.

Lemma tables_step_remove w w' : tables_step w w' → _remove (spec w') = _remove (spec w).
Proof. intros S. apply (f_equal _remove (ts_rest _ _ S)). Qed.

Lemma Feature__init___removals i element w f w' :
  Feature__init__ i element w = (Ok f, w') →
  ∀ j o, _remove (spec w') !! j = Some o →
    _remove (spec w) !! j = Some o
    ∨ (j = id_of o ∧ ∃ r, r ∈ chained "remove" element
         ∧ ∀ w'', grows w' w'' → resolve (spec w'') r = Some o).
Proof.
  unfold Feature__init__. intros H.
  apply bind_Ok in H as (ext & w1 & Hext & H).
  apply bind_Ok in H as ([] & w2 & Hloop & H).
  apply bind_Ok in H as (num & w3 & Hnum & H). apply lift_Ok in Hnum as [Hnum ->].
  apply bind_Ok in H as (a & w3 & Hapi & H). apply lift_Ok in Hapi as [Hapi ->].
  apply ret_Ok in H as [_ ->].
  apply Extension__init___Ok in Hext as (S1 & _).
  rewrite <- (tables_step_remove _ _ S1).
  eapply (for_Ok _ (λ pre w2,
    ∀ j o, _remove (spec w2) !! j = Some o →
      _remove (spec w1) !! j = Some o
      ∨ (j = id_of o ∧ ∃ r, r ∈ pre
           ∧ ∀ w'', grows w2 w'' → resolve (spec w'') r = Some o)));
    [| |exact Hloop].
  - by left.
  - clear. intros pre r w1' w2 Hinv H. unfold remove_body in H.
    assert (Hold : ∀ j o wn, grows w1' wn → _remove (spec w1') !! j = Some o →
              _remove (spec w1) !! j = Some o
              ∨ (j = id_of o ∧ ∃ r', r' ∈ pre ++ [r]
                   ∧ ∀ w'', grows wn w'' → resolve (spec w'') r' = Some o)).
    { intros j o wn G Hj. destruct (Hinv j o Hj) as [?|(-> & r' & Hr' & Hres)];
        [by left|right]. split; [done|]. exists r'. split.
      - apply elem_of_app. by left.
      - intros w'' G'. apply Hres. by etrans. }
    case_bool_decide as Ht.
    { apply ret_Ok in H as [_ ->]. intros j o. by apply Hold. }
    apply bind_Ok in H as (data & wt & Hd & H).
    apply table_Ok in Hd as (St & et & ct & He & Hc & Hdata).
    assert (Hent := entry_lookup et ct r data Hdata).
    pose proof (tables_step_remove _ _ St) as Hsame.
    pose proof (tables_step_grows _ _ St) as Gt.
    apply except_KeyError_Ok in H as [H|(w3 & H & H')].
    + apply bind_Ok in H as (o & w3 & Ho & H). apply lift_Ok in Ho as [Ho ->].
      apply update_Ok in H as ->. simpl.
      rewrite Hent in Ho. destruct (lookup_entry et ct r) as [o'|] eqn:El; [|done].
      injection Ho as ->.
      intros j o1 [Hj|[-> ->]]%set_add_lookup.
      * rewrite Hsame in Hj. apply (Hold j o1); [|done].
        etrans; [exact Gt|apply grows_update_remove].
      * right. split; [done|]. exists r. split.
        { apply elem_of_app. right. by apply list_elem_of_singleton. }
        intros w'' G. rewrite (resolve_cached w'' et ct); [done|].
        eapply cached_grows; [|exact G]. by split.
    + apply ret_Ok in H' as [_ ->].
      assert (w3 = wt) as ->.
      { revert H. unfold mbind, Py_bind, lift. rewrite Hent.
        destruct (lookup_entry et ct r); [done|by intros [= ->]]. }
      intros j o Hj. rewrite Hsame in Hj. by apply (Hold j o).
Qed.

Lemma Feature_new_removals element w f w' :
  Feature_new element w = (Ok f, w') →
  ∀ j o, _remove (spec w') !! j = Some o →
    _remove (spec w) !! j = Some o
    ∨ (j = id_of o ∧ ∃ r, r ∈ chained "remove" element
         ∧ ∀ w'', grows w' w'' → resolve (spec w'') r = Some o).
Proof.
  unfold Feature_new. intros H.
  apply bind_Ok in H as (i & w1 & Hi & H). apply new_Ok in Hi as [-> ->].
  exact (Feature__init___removals _ _ _ _ _ H).
Qed.

Lemma features_removals w fs w' :
  _features (spec w) = None → features w = (Ok fs, w') →
  ∀ j o, _remove (spec w') !! j = Some o →
    _remove (spec w) !! j = Some o
    ∨ (j = id_of o ∧ ∃ element r,
         element ∈ Element_iter "feature" (root (spec w))
         ∧ r ∈ chained "remove" element
         ∧ ∀ w'', grows w' w'' → resolve (spec w'') r = Some o).
Proof.
  intros Hnone H. unfold features in H.
  apply bind_Ok in H as (s & w1 & Hs & H). apply self_Ok in Hs as [-> ->].
  rewrite Hnone in H.
  apply bind_Ok in H as ([] & w1 & Hu & H). apply update_Ok in Hu as ->.
  apply bind_Ok in H as ([] & w2 & Hloop & H).
  apply bind_Ok in H as (s & w3 & Hs & H). apply self_Ok in Hs as [-> ->].
  apply ret_Ok in H as [_ ->].
  eapply (for_Ok _ (λ pre w2,
    ∀ j o, _remove (spec w2) !! j = Some o →
      _remove (spec w) !! j = Some o
      ∨ (j = id_of o ∧ ∃ element r, element ∈ pre ∧ r ∈ chained "remove" element
           ∧ ∀ w'', grows w2 w'' → resolve (spec w'') r = Some o)));
    [| |exact Hloop].
  - by left.
  - clear. intros pre x w1 w2 Hinv H. cbv beta in H.
    apply bind_Ok in H as (num & w3 & Hnum & H). apply lift_Ok in Hnum as [Hnum ->].
    apply bind_Ok in H as (f & w3 & Hnew & H).
    apply bind_Ok in H as (a & w4 & Hapi & H). apply lift_Ok in Hapi as [Hapi ->].
    apply update_Ok in H as ->. simpl.
    pose proof (Feature_new_Ok _ _ _ _ Hnew) as (G1 & _).
    pose proof (grows_features_setitem w3 a num f) as G2.
    intros j o Hj.
    destruct (Feature_new_removals _ _ _ _ Hnew j o Hj)
      as [Hold|(-> & r & Hr & Hres)].
    + destruct (Hinv j o Hold) as [?|(-> & el & r & Hel & Hr & Hres)]; [by left|].
      right. split; [done|]. exists el, r. split_and!; [|done|].
      * apply elem_of_app. by left.
      * intros w'' G. apply Hres. by repeat (etrans; [eassumption|]).
    + right. split; [done|]. exists x, r. split_and!; [|done|].
      * apply elem_of_app. right. by apply list_elem_of_singleton.
      * intros w'' G. apply Hres. by etrans.
Qed.

(** X15.  The converse of C1.  When [features] is derived from an empty
    removal set, the set holds, under their identities, only objects that a
    remove block of some feature node names in the tables; so under
    ["core"] a required command or constant is missing from a view only if
    some remove block names an object of its identity. *)
Theorem hidden_only_if_removed w0 fs w1 w2 :
  _features (spec w0) = None → _remove (spec w0) = ∅ →
  features w0 = (Ok fs, w1) →
  profile_setter "core" w1 = (Ok (), w2) →
  (∀ j o, _remove (spec w2) !! j = Some o →
     j = id_of o
     ∧ ∃ element r, element ∈ Element_iter "feature" (root (spec w0))
         ∧ r ∈ chained "remove" element ∧ resolve (spec w2) r = Some o)
  ∧ (∀ f c, c ∈ Extension_functions (base f) → c ∉ Feature_functions f (spec w2) →
       ∃ element r o, element ∈ Element_iter "feature" (root (spec w0))
         ∧ r ∈ chained "remove" element ∧ resolve (spec w2) r = Some o
         ∧ id_of o = Command_id c)
  ∧ (∀ f e, e ∈ Extension_enums (base f) → e ∉ Feature_enums f (spec w2) →
       ∃ element r o, element ∈ Element_iter "feature" (root (spec w0))
         ∧ r ∈ chained "remove" element ∧ resolve (spec w2) r = Some o
         ∧ id_of o = Enum_id e).
Proof.
  intros Hnone Hempty Hfs Hset.
  unfold profile_setter in Hset. simpl in Hset. apply update_Ok in Hset as ->.
  simpl.
  assert (Hexact : ∀ j o, _remove (spec w1) !! j = Some o →
            j = id_of o
            ∧ ∃ element r, element ∈ Element_iter "feature" (root (spec w0))
                ∧ r ∈ chained "remove" element
                ∧ resolve (set_profile "core" (spec w1)) r = Some o).
  { intros j o Hj.
    destruct (features_removals w0 fs w1 Hnone Hfs j o Hj)
      as [Hold|(-> & el & r & Hel & Hr & Hres)].
    - by rewrite Hempty, lookup_empty in Hold.
    - split; [done|]. exists el, r. split_and!; [done..|].
      by apply (Hres w1). }
  split_and!.
  - exact Hexact.
  - intros f c Hin Hnot.
    destruct (_remove (spec w1) !! Command_id c) as [o|] eqn:E.
    + destruct (Hexact _ _ E) as (Hid & el & r & ? & ? & ?). by exists el, r, o.
    + exfalso. apply Hnot. unfold Feature_functions.
      apply list_elem_of_filter. split; [|done].
      unfold set_in, removed. simpl. apply bool_decide_eq_false.
      rewrite E. by intros [? ?].
  - intros f e Hin Hnot.
    destruct (_remove (spec w1) !! Enum_id e) as [o|] eqn:E.
    + destruct (Hexact _ _ E) as (Hid & el & r & ? & ? & ?). by exists el, r, o.
    + exfalso. apply Hnot. unfold Feature_enums.
      apply list_elem_of_filter. split; [|done].
      unfold set_in, removed. simpl. apply bool_decide_eq_false.
      rewrite E. by intros [? ?].
Qed.

Lemma hidden_only_if_removed_witness :
  let w2 := (profile_setter "core" (features demo_w0).2).2 in
  ∃ element r o, element ∈ Element_iter "feature" demo_registry
    ∧ r ∈ chained "remove" element ∧ resolve (spec w2) r = Some o
    ∧ id_of o = Command_id demo_glFoo.
Proof.
  destruct (hidden_only_if_removed demo_w0 (value_of ∅ (features demo_w0).1)
              (features demo_w0).2 (profile_setter "core" (features demo_w0).2).2
              eq_refl eq_refl ltac:(vm_compute; reflexivity)
              ltac:(vm_compute; reflexivity)) as (_ & H & _).
  apply (H demo_version_1_0 demo_glFoo).
  - vm_compute. repeat constructor.
  - vm_compute. intros Hin.
    repeat (inversion Hin as [|? ? ? Hin']; clear Hin; rename Hin' into Hin).
Defined.

(** ** The profile has no part in the derivations *)

Lemma blind_ret {A} (a : A) : profile_blind (mret a).
Proof. by intros p w. Qed.

Lemma blind_lift {A} (r : result A) : profile_blind (lift r).
Proof. by intros p w. Qed.

Lemma blind_raise {A} e : profile_blind (raise e : Py A).
Proof. by intros p w. Qed.

Lemma blind_new : profile_blind new.
Proof. by intros p w. Qed.

Lemma blind_update f :
  (∀ p s, f (set_profile p s) = set_profile p (f s)) → profile_blind (update f).
Proof. intros H p w. unfold update, with_profile. simpl. by rewrite H. Qed.

Lemma blind_bind {A B} (c : Py A) (f : A → Py B) :
  profile_blind c → (∀ a, profile_blind (f a)) → profile_blind (c ≫= f).
Proof.
  intros Hc Hf p w. unfold mbind, Py_bind. rewrite Hc.
  destruct (c w) as [[a|e] w1]; simpl; [apply Hf|done].
Qed.

Lemma blind_self_bind {A} (k : OpenGLSpec → Py A) :
  (∀ s, profile_blind (k s)) → (∀ p s w, k (set_profile p s) w = k s w) →
  profile_blind (self ≫= k).
Proof.
  intros Hk Heq p w. unfold mbind, Py_bind, self. simpl. rewrite Hk.
  by rewrite Heq.
Qed.

Lemma blind_for {A} (body : A → Py unit) l :
  (∀ x, profile_blind (body x)) → profile_blind (for_ body l).
Proof.
  intros Hb. induction l as [|x l IH]; simpl; [apply blind_ret|].
  apply blind_bind; [apply Hb|by intros _].
Qed.

Lemma blind_for_acc {A S} (body : S → A → Py S) acc l :
  (∀ a x, profile_blind (body a x)) → profile_blind (for_acc body acc l).
Proof.
  intros Hb. revert acc. induction l as [|x l IH]; intros acc; simpl;
    [apply blind_ret|].
  apply blind_bind; [apply Hb|by intros a].
Qed.

Lemma blind_mapM {A B} (f : A → Py B) l :
  (∀ x, profile_blind (f x)) → profile_blind (mapM f l).
Proof.
  intros Hf. induction l as [|x l IH]; simpl; [apply blind_ret|].
  apply blind_bind; [apply Hf|intros b].
  apply blind_bind; [apply IH|intros k]. apply blind_ret.
Qed.

Lemma blind_except {A} (body handler : Py A) :
  profile_blind body → profile_blind handler →
  profile_blind (except_KeyError body handler).
Proof.
  intros Hb Hh p w. unfold except_KeyError. rewrite Hb.
  destruct (body w) as [[a|[]] w1]; simpl; first [done|apply Hh].
Qed.

Ltac blind_step :=
  first
    [ apply blind_ret | apply blind_lift | apply blind_raise | apply blind_new
    | apply blind_self_bind; [intros ?|reflexivity]
    | apply blind_bind; [|intros ?]
    | apply blind_for; intros ?
    | apply blind_for_acc; intros ? ?
    | apply blind_mapM; intros ?
    | apply blind_except
    | apply blind_update; reflexivity
    | match goal with
      | |- profile_blind (match ?x with _ => _ end) => destruct x
      end ].

Lemma blind_enums : profile_blind enums.
Proof. unfold enums, Enum_new. repeat blind_step. Qed.

Lemma blind_commands : profile_blind commands.
Proof. unfold commands, Command_new. repeat blind_step. Qed.

Lemma blind_table tg : profile_blind (table tg).
Proof.
  unfold table.
  apply blind_bind; [apply blind_enums|intros e].
  apply blind_bind; [apply blind_commands|intros c].
  repeat blind_step.
Qed.

Lemma blind_Extension__init__ i element : profile_blind (Extension__init__ i element).
Proof.
  unfold Extension__init__.
  apply blind_bind; [apply blind_lift|intros name].
  apply blind_bind; [|intros; apply blind_ret].
  apply blind_for_acc. intros acc r. unfold require_body.
  destruct (bool_decide _); [apply blind_ret|].
  apply blind_bind; [apply blind_table|intros data]. repeat blind_step.
Qed.

Lemma blind_Feature_new element : profile_blind (Feature_new element).
Proof.
  unfold Feature_new. apply blind_bind; [apply blind_new|intros i].
  unfold Feature__init__.
  apply blind_bind; [apply blind_Extension__init__|intros ext].
  apply blind_bind; [|intros; repeat blind_step].
  apply blind_for. intros r. unfold remove_body.
  destruct (bool_decide _); [apply blind_ret|].
  apply blind_bind; [apply blind_table|intros data]. repeat blind_step.
Qed.

(** X16.  The profile has no part in the derivations: run under another
    profile, each of them returns or raises the same and ends in the same
    state but for the profile; in particular [features] builds the same
    collection and the same removal set. *)
Theorem derivations_ignore_profile :
  profile_blind types ∧ profile_blind groups ∧ profile_blind enums
  ∧ profile_blind commands ∧ profile_blind features ∧ profile_blind extensions
  ∧ (∀ p w, (features (with_profile p w)).1 = (features w).1
            ∧ _remove (spec (features (with_profile p w)).2)
              = _remove (spec (features w).2)).
Proof.
  assert (Hfeatures : profile_blind features).
  2:{ assert (Hextensions : profile_blind extensions).
      2:{ split_and!; [| | | |exact Hfeatures|exact Hextensions|].
          - unfold types. repeat blind_step.
          - unfold groups. repeat blind_step.
          - apply blind_enums.
          - apply blind_commands.
          - intros p w. by rewrite Hfeatures. }
      unfold extensions. apply blind_self_bind; [intros s|reflexivity].
      destruct (_extensions s); [apply blind_ret|].
      apply blind_bind; [repeat blind_step|intros _].
      apply blind_bind; [apply blind_lift|intros elements].
      apply blind_bind; [|intros; repeat blind_step].
      apply blind_for. intros element.
      apply blind_bind; [apply blind_lift|intros sup].
      apply blind_for. intros a.
      apply blind_bind.
      { unfold Extension_new. apply blind_bind; [apply blind_new|intros i].
        apply blind_Extension__init__. }
      intros e. repeat blind_step. }
  unfold features. apply blind_self_bind; [intros s|reflexivity].
  destruct (_features s); [apply blind_ret|].
  apply blind_bind; [repeat blind_step|intros _].
  apply blind_bind; [|intros; repeat blind_step].
  apply blind_for. intros element.
  apply blind_bind; [apply blind_lift|intros num].
  apply blind_bind; [apply blind_Feature_new|intros f]. repeat blind_step.
Qed.

(** ** The further properties on the sample documents *)

Lemma derived_collections_are_memoized_witness :
  enums (enums demo_w0).2 = (Ok (value_of ∅ (enums demo_w0).1), (enums demo_w0).2)
  ∧ features (features demo_w0).2
    = (Ok (value_of ∅ (features demo_w0).1), (features demo_w0).2)
  ∧ extensions (extensions demo_w0).2
    = (Ok (value_of ∅ (extensions demo_w0).1), (extensions demo_w0).2).
Proof.
  destruct (derived_collections_are_memoized demo_w0) as (_ & _ & He & _ & Hf & Hx).
  split_and!.
  - apply He. vm_compute. reflexivity.
  - apply Hf. vm_compute. reflexivity.
  - apply Hx. vm_compute. reflexivity.
Defined.

Lemma failed_access_leaves_cache_witness :
  (enums broken_w0).1 = Raise KeyError
  ∧ (∃ t, enums (enums broken_w0).2 = (Ok t, (enums broken_w0).2))
  ∧ (∃ t, features (features broken_w0).2 = (Ok t, (features broken_w0).2))
  ∧ (∃ t, extensions (extensions bare_w0).2 = (Ok t, (extensions bare_w0).2))
  ∧ (groups bare_w0).2 = bare_w0
  ∧ _commands (spec (commands bare_w0).2) = None.
Proof.
  split_and!.
  - reflexivity.
  - apply (failed_access_leaves_cache broken_w0 KeyError (enums broken_w0).2).
    vm_compute. reflexivity.
  - apply (failed_access_leaves_cache broken_w0 KeyError (features broken_w0).2).
    vm_compute. reflexivity.
  - apply (failed_access_leaves_cache bare_w0 TypeError (extensions bare_w0).2).
    vm_compute. reflexivity.
  - apply (failed_access_leaves_cache bare_w0 TypeError (groups bare_w0).2).
    vm_compute. reflexivity.
  - apply (failed_access_leaves_cache bare_w0 TypeError (commands bare_w0).2).
    vm_compute. reflexivity.
Defined.

Lemma groups_table_witness :
  ∃ container,
    Element_find "groups" groups_registry = Some container
    ∧ ∀ k g, value_of ∅ (groups groups_w0).1 !! k = Some g → Group_name g = k.
Proof.
  destruct (groups_table groups_w0 (value_of ∅ (groups groups_w0).1)
              (groups groups_w0).2 eq_refl ltac:(vm_compute; reflexivity))
    as (container & Hfind & Hkeys & _).
  exists container. split; [exact Hfind|].
  intros k g Hg. by destruct (Hkeys k g Hg).
Defined.

Lemma commands_table_witness :
  ∃ container,
    Element_find "commands" demo_registry = Some container
    ∧ ∀ element, element ∈ children container →
        ∃ c, Command__init__ (Command_id c) element = Ok c
             ∧ is_Some (value_of ∅ (commands demo_w0).1 !! Proto_name (proto c)).
Proof.
  destruct (commands_table demo_w0 (value_of ∅ (commands demo_w0).1)
              (commands demo_w0).2 eq_refl ltac:(vm_compute; reflexivity))
    as (container & Hfind & _ & Hall).
  exists container. split; [exact Hfind|exact Hall].
Defined.

Lemma enums_table_witness :
  ∃ element enum,
    element ∈ Element_iter "enums" demo_registry
    ∧ enum ∈ children element ∧ enum_of element enum demo_GL_A.
Proof.
  destruct (enums_table demo_w1 (value_of ∅ (enums demo_w1).1) (enums demo_w1).2
              eq_refl ltac:(vm_compute; reflexivity)) as [Hfrom _].
  destruct (Hfrom "GL_A" demo_GL_A ltac:(vm_compute; reflexivity))
    as (_ & element & enum & H).
  exists element, enum. exact H.
Defined.

Lemma features_table_witness :
  feat_at (value_of ∅ (features demo_w0).1) "gl" [2; 0] = Some demo_version_2_0
  ∧ ∃ element, element ∈ Element_iter "feature" demo_registry
      ∧ attrib element !! "api" = Some "gl"
      ∧ version element = Ok [2; 0]
      ∧ attrib element !! "name" = Some "GL_VERSION_2_0"
      ∧ require (base demo_version_2_0)
        = omap (resolve (spec (features demo_w0).2)) (chained "require" element).
Proof.
  destruct (features_table demo_w0 (value_of ∅ (features demo_w0).1)
              (features demo_w0).2 eq_refl ltac:(vm_compute; reflexivity))
    as [Hfrom _].
  assert (Hat : feat_at (value_of ∅ (features demo_w0).1) "gl" [2; 0]
                = Some demo_version_2_0) by (vm_compute; reflexivity).
  split; [exact Hat|].
  destruct (Hfrom "gl" [2; 0] demo_version_2_0 Hat) as (_ & _ & H). exact H.
Defined.

Lemma feature_views_by_profile_witness :
  Feature_functions demo_version_1_0 (spec (features demo_w0).2)
  = Extension_functions (base demo_version_1_0)
  ∧ Feature_enums demo_version_1_0 (spec (features demo_w0).2)
    = Extension_enums (base demo_version_1_0).
Proof.
  destruct (feature_views_by_profile demo_version_1_0 (spec (features demo_w0).2))
    as [H _].
  destruct (H ltac:(vm_compute; discriminate)) as [He Hf]. split; [exact Hf|exact He].
Defined.

Lemma unknown_tag_raises_KeyError_witness :
  Extension__init__ 9 odd_extension demo_tables_w = (Raise KeyError, demo_tables_w).
Proof.
  apply (unknown_tag_raises_KeyError demo_tables_w demo_enums demo_commands
           9%positive odd_extension "GL_EXT_odd").
  - split; vm_compute; reflexivity.
  - vm_compute. reflexivity.
  - apply Exists_cons_tl, Exists_cons_hd. unfold known_tag. vm_compute.
    intros H. repeat (inversion H as [|? ? ? H']; clear H; rename H' into H).
Defined.

Lemma feature_without_api_keeps_its_removals_witness :
  _remove (spec demo_tables_w) = ∅
  ∧ (Feature__init__ 9 apiless_feature demo_tables_w).1 = Raise KeyError
  ∧ id_of <$> (map_to_list
                 (_remove (spec (Feature__init__ 9 apiless_feature demo_tables_w).2))).*2
    = [2%positive]
  ∧ id_of <$> (demo_commands !! Some "glFoo") ≫= (λ c, Some (OCommand c))
    = Some 2%positive.
Proof.
  rewrite (feature_without_api_keeps_its_removals demo_tables_w demo_enums
             demo_commands 9%positive apiless_feature "GL_VERSION_3_0" [3; 0]).
  - split_and!; vm_compute; reflexivity.
  - split; vm_compute; reflexivity.
  - vm_compute. reflexivity.
  - vm_compute. repeat constructor.
  - vm_compute. repeat constructor.
  - vm_compute. reflexivity.
  - vm_compute. reflexivity.
Defined.



Lemma rendering_raises_only_without_type_witness :
  let t := {| OGLType_type := Some "GLuint"; is_pointer := 1; is_const := false |} in
  to_d t = Ok "GLuint*"
  ∧ to_d {| OGLType_type := None; is_pointer := 1; is_const := false |}
    = Raise TypeError.
Proof.
  split.
  - apply (rendering_raises_only_without_type
             {| OGLType_type := Some "GLuint"; is_pointer := 1; is_const := false |});
      reflexivity.
  - apply (rendering_raises_only_without_type
             {| OGLType_type := None; is_pointer := 1; is_const := false |});
      reflexivity.
Defined.
